(** * PEHint version updater ([update_version.py])

    A shallow embedding of the release helper that rewrites the version
    macros of [src/version.h] and the [project(PEHint VERSION ...)] clause of
    [CMakeLists.txt], together with the properties of its text rewriting and
    of its driver.

    Modelling conventions.
    - Text is a list of 8-bit characters (code points below 256).  In that
      range the class [\d] of the regular expressions is exactly ['0'..'9'].
    - Python integers are [Z]; [str] of an integer is the decimal printer of
      the standard library, [int] of a string is transcribed from the
      interpreter's conversion (surrounding white space, an optional sign,
      digits optionally grouped by single underscores).  The interpreter's
      configurable limit on the number of digits of a conversion is not
      modelled.
    - The file system is seen through text mode: a finite map from the paths
      of the regular files that can be read as text to their text, as
      [read_text] presents it (decoded, line endings read as line feeds).
      The bytes on disk, their encoding and the line endings that
      [write_text] produces on a given platform lie below the model, and so
      do paths that exist without being readable text (directories, files
      that do not decode).  Statements about files are statements about
      their text.
    - Standard output is the list of printed lines; every [write_text] is
      recorded in a log, so that "no write happened" can be told from "the
      same content was written back".
    - The driver is modelled from the point where [parse_args] has returned
      a namespace; the exits of [argparse] itself (status 2 on a malformed
      command line, status 0 on [--help]) come before.
    - Paths are printed as [root/name]; the normalisation that [pathlib]
      applies to unusual roots is not modelled. *)

From Stdlib Require Import ZArith Ascii String DecimalString DecimalPos List Permutation Lia.
From stdpp Require Import gmap strings list.

Open Scope Z_scope.

(** ** Text *)

Definition text := list ascii.

Definition lit (s : string) : text := list_ascii_of_string s.

(** The double quote character. *)
Definition dquote : ascii := ascii_of_nat 34.

Definition is_digit (c : ascii) : bool :=
  let n := N_of_ascii c in ((48 <=? n) && (n <=? 57))%N.

Definition digit_val (c : ascii) : Z := Z.of_N (N_of_ascii c) - 48.

(** [str(n)] for an integer [n]. *)
Definition py_str (n : Z) : text := lit (NilZero.string_of_int (Z.to_int n)).

(** [f"{major}.{minor}.{patch}"] *)
Definition version_string (major minor patch : Z) : text :=
  py_str major ++ lit "." ++ py_str minor ++ lit "." ++ py_str patch.

(** ** Regular expressions

    The fragment of [re] used by the script: literal characters and the
    greedy repetition [\d+]. *)

Inductive atom : Type :=
  | Lit (c : ascii)
  | Digits.

Definition regex := list atom.

Definition lits (s : string) : regex := map Lit (lit s).

(** [rmatch p s] anchors [p] at the start of [s] and returns the text that
    follows the match.  [\d+] is greedy and backtracks: it first tries to
    take one more digit and only then gives the rest of the pattern its
    chance. *)
Fixpoint rmatch (p : regex) : text -> option text :=
  match p with
  | [] => fun s => Some s
  | Lit c :: p' => fun s =>
      match s with
      | x :: s' => if Ascii.eqb x c then rmatch p' s' else None
      | [] => None
      end
  | Digits :: p' =>
      fix more (s : text) : option text :=
        match s with
        | x :: s' =>
            if is_digit x then
              match more s' with
              | Some r => Some r
              | None => rmatch p' s'
              end
            else None
        | [] => None
        end
  end.

(** [re.search(p, s)]: does [p] match at some position of [s]? *)
Fixpoint re_search (p : regex) (s : text) : bool :=
  match rmatch p s with
  | Some _ => true
  | None => match s with
            | [] => false
            | _ :: s' => re_search p s'
            end
  end.

(** [re.sub(p, repl, s)] scans [s] from the left; at a position where [p]
    matches, the replacement is emitted and the scan resumes after the match;
    elsewhere the character is copied.  An empty match is replaced and the
    scan moves one character on.  The replacements of the script contain no
    backslash, so they are emitted literally. *)
Fixpoint re_sub_fuel (fuel : nat) (p : regex) (repl s : text) : text :=
  match fuel with
  | O => s
  | S fuel' =>
      let copy := match s with
                  | [] => []
                  | c :: s' => c :: re_sub_fuel fuel' p repl s'
                  end in
      match rmatch p s with
      | Some rest =>
          if (length rest <? length s)%nat
          then repl ++ re_sub_fuel fuel' p repl rest
          else repl ++ copy
      | None => copy
      end
  end.

Definition re_sub (p : regex) (repl s : text) : text :=
  re_sub_fuel (S (length s)) p repl s.

(** [t in s] for strings. *)
Fixpoint is_prefix (t s : text) : bool :=
  match t, s with
  | [], _ => true
  | a :: t', b :: s' => Ascii.eqb a b && is_prefix t' s'
  | _ :: _, [] => false
  end.

Fixpoint contains (t s : text) : bool :=
  is_prefix t s ||
  match s with
  | [] => false
  | _ :: s' => contains t s'
  end.

(** ** The header updater: the text transformation *)

Inductive macro : Type := MAJOR | MINOR | PATCH | STRING | STRING_FULL.

Definition triple_re : regex :=
  [Digits; Lit "."%char; Digits; Lit "."%char; Digits].

Definition header_pattern (m : macro) : regex :=
  match m with
  | MAJOR => lits "#define PEHINT_VERSION_MAJOR " ++ [Digits]
  | MINOR => lits "#define PEHINT_VERSION_MINOR " ++ [Digits]
  | PATCH => lits "#define PEHINT_VERSION_PATCH " ++ [Digits]
  | STRING =>
      lits "#define PEHINT_VERSION_STRING " ++ [Lit dquote] ++ triple_re
        ++ [Lit dquote]
  | STRING_FULL =>
      lits "#define PEHINT_VERSION_STRING_FULL " ++ [Lit dquote; Lit "v"%char]
        ++ triple_re ++ [Lit dquote]
  end.

Definition header_repl (major minor patch : Z) (m : macro) : text :=
  match m with
  | MAJOR => lit "#define PEHINT_VERSION_MAJOR " ++ py_str major
  | MINOR => lit "#define PEHINT_VERSION_MINOR " ++ py_str minor
  | PATCH => lit "#define PEHINT_VERSION_PATCH " ++ py_str patch
  | STRING =>
      lit "#define PEHINT_VERSION_STRING " ++ [dquote]
        ++ version_string major minor patch ++ [dquote]
  | STRING_FULL =>
      lit "#define PEHINT_VERSION_STRING_FULL " ++ [dquote; "v"%char]
        ++ version_string major minor patch ++ [dquote]
  end.

(** One substitution of [update_version_header]. *)
Definition header_sub (major minor patch : Z) (m : macro) (content : text) : text :=
  re_sub (header_pattern m) (header_repl major minor patch m) content.

(** The five substitutions in the order of the source. *)
Definition header_order : list macro := [MAJOR; MINOR; PATCH; STRING; STRING_FULL].

Definition apply_subs (major minor patch : Z) (order : list macro) (content : text) : text :=
  fold_left (fun acc m => header_sub major minor patch m acc) order content.

Definition update_header_text (major minor patch : Z) (content : text) : text :=
  let content := header_sub major minor patch MAJOR content in
  let content := header_sub major minor patch MINOR content in
  let content := header_sub major minor patch PATCH content in
  let content := header_sub major minor patch STRING content in
  let content := header_sub major minor patch STRING_FULL content in
  content.

(** ** The build-file updater: pattern, replacement and guard *)

(** [r'project\(PEHint VERSION \d+\.\d+\.\d+'] *)
Definition cmake_pattern : regex := lits "project(PEHint VERSION " ++ triple_re.

(** [f'project(PEHint VERSION {major}.{minor}.{patch}'] *)
Definition cmake_repl (major minor patch : Z) : text :=
  lit "project(PEHint VERSION " ++ version_string major minor patch.

(** [f'VERSION {major}.{minor}.{patch}'], the text looked for by the guard. *)
Definition cmake_needle (major minor patch : Z) : text :=
  lit "VERSION " ++ version_string major minor patch.

(** ** Parsing the version argument *)

(** [s.split(sep)] for a one-character separator. *)
Fixpoint split (sep : ascii) (s : text) : list text :=
  match s with
  | [] => [[]]
  | c :: s' =>
      if Ascii.eqb c sep then [] :: split sep s'
      else match split sep s' with
           | seg :: segs => (c :: seg) :: segs
           | [] => [[c]]
           end
  end.

(** White space skipped by [int]: tab, line feed, vertical tab, form feed,
    carriage return, space, and in the upper half next line and no-break
    space. *)
Definition is_space (c : ascii) : bool :=
  let n := N_of_ascii c in
  (((9 <=? n) && (n <=? 13)) || (n =? 32) || (n =? 133) || (n =? 160))%N.

Fixpoint skip_spaces (s : text) : text :=
  match s with
  | c :: s' => if is_space c then skip_spaces s' else s
  | [] => []
  end.

(** The digits of a literal: single underscores may separate digits.
    [prev_us] tells whether the previous character was an underscore. *)
Fixpoint scan_digits (acc : Z) (prev_us : bool) (s : text) : option (Z * text) :=
  match s with
  | c :: s' =>
      if is_digit c then scan_digits (10 * acc + digit_val c) false s'
      else if Ascii.eqb c "_"%char then
        if prev_us then None else scan_digits acc true s'
      else if prev_us then None else Some (acc, s)
  | [] => if prev_us then None else Some (acc, [])
  end.

(** [int(s)] in base ten; [None] stands for [ValueError].  Numerals of any
    length are converted (the interpreter refuses, by default, those of more
    than 4300 digits). *)
Definition py_int (s : text) : option Z :=
  let s := skip_spaces s in
  let '(negative, s) :=
    match s with
    | c :: s' =>
        if Ascii.eqb c "+"%char then (false, s')
        else if Ascii.eqb c "-"%char then (true, s')
        else (false, s)
    | [] => (false, s)
    end in
  match s with
  | c :: _ =>
      if is_digit c then
        match scan_digits 0 false s with
        | Some (n, rest) =>
            match skip_spaces rest with
            | [] => Some (if negative then - n else n)
            | _ :: _ => None
            end
        | None => None
        end
      else None
  | [] => None
  end.

(** [major, minor, patch = map(int, version.split('.'))]; [None] stands for
    the [ValueError] of a failed conversion or of unpacking a number of
    segments other than three. *)
Definition parse_version (version : text) : option (Z * Z * Z) :=
  match map py_int (split "."%char version) with
  | [Some major; Some minor; Some patch] => Some (major, minor, patch)
  | _ => None
  end.

(** ** The process: files, output, exceptions *)

Record world : Type := World {
  files : gmap string text;   (* regular files, by path *)
  stdout : list text;         (* one entry for each [print] *)
  writes : list string        (* the paths written, oldest first *)
}.

Inductive exn : Type :=
  | SystemExit (code : Z)
  | FileNotFoundError (path : string).

(** A computation either raises or returns, and leaves a new world. *)
Definition M (A : Type) : Type := world -> (exn + A) * world.

#[global] Instance M_ret : MRet M := fun A a w => (inr a, w).

#[global] Instance M_bind : MBind M := fun A B k m w =>
  match m w with
  | (inl e, w') => (inl e, w')
  | (inr a, w') => k a w'
  end.

Definition raise {A : Type} (e : exn) : M A := fun w => (inl e, w).

Definition print (line : text) : M unit := fun w =>
  (inr tt, World (files w) (stdout w ++ [line]) (writes w)).

Definition path_exists (path : string) : M bool := fun w =>
  (inr (bool_decide (is_Some (files w !! path))), w).

(** [path.read_text()]: the text of the file, [FileNotFoundError] when there
    is none. *)
Definition read_text (path : string) : M text := fun w =>
  match files w !! path with
  | Some content => (inr content, w)
  | None => (inl (FileNotFoundError path), w)
  end.

(** [path.write_text(content)]: the file now reads as [content]. *)
Definition write_text (path : string) (content : text) : M unit := fun w =>
  (inr tt, World (<[path := content]> (files w)) (stdout w) (writes w ++ [path])).

Definition sys_exit {A : Type} (code : Z) : M A := raise (SystemExit code).

(** [update_version_header(version_file, major, minor, patch)] *)
Definition update_version_header (version_file : string) (major minor patch : Z) : M unit :=
  content ← read_text version_file;
  let content := update_header_text major minor patch content in
  write_text version_file content;;
  print (lit "Updated " ++ lit version_file ++ lit " to version "
           ++ version_string major minor patch).

(** [update_cmake_version(cmake_file, major, minor, patch)] *)
Definition update_cmake_version (cmake_file : string) (major minor patch : Z) : M unit :=
  content ← read_text cmake_file;
  if contains (cmake_needle major minor patch) content then
    print (lit "CMakeLists.txt already has correct version "
             ++ version_string major minor patch)
  else if re_search cmake_pattern content then
    let content := re_sub cmake_pattern (cmake_repl major minor patch) content in
    write_text cmake_file content;;
    print (lit "Updated " ++ lit cmake_file ++ lit " to version "
             ++ version_string major minor patch)
  else
    print (lit "No hardcoded version found in " ++ lit cmake_file).

(** The parsed command line. *)
Record namespace : Type := Namespace {
  version : text;
  dry_run : bool
}.

(** [project_root / name], for a root that is printed without a trailing
    separator. *)
Definition joinpath (dir name : string) : string :=
  String.append dir (String.append "/" name).

Definition version_file_of (project_root : string) : string :=
  joinpath (joinpath project_root "src") "version.h".

Definition cmake_file_of (project_root : string) : string :=
  joinpath project_root "CMakeLists.txt".

Definition newline : ascii := ascii_of_nat 10.

(** [main()] from line 53 on: [args] is the namespace that [parse_args]
    returned on line 51, [project_root] is the directory of the script. *)
Definition main (project_root : string) (args : namespace) : M unit :=
  match parse_version (version args) with
  | None =>
      print (lit "Error: Version must be in format X.Y.Z (e.g., 0.4.2)");;
      sys_exit 1
  | Some (major, minor, patch) =>
      print (lit "Updating PEHint to version " ++ version_string major minor patch);;
      let version_file := version_file_of project_root in
      let cmake_file := cmake_file_of project_root in
      found ← path_exists version_file;
      if negb found then
        print (lit "Error: " ++ lit version_file ++ lit " not found");;
        sys_exit 1
      else if dry_run args then
        print (lit "DRY RUN - No changes will be made");;
        print (lit "Would update " ++ lit version_file ++ lit " to version "
                 ++ version_string major minor patch);;
        print (lit "Would check " ++ lit cmake_file ++ lit " for hardcoded versions")
      else
        update_version_header version_file major minor patch;;
        update_cmake_version cmake_file major minor patch;;
        print ([newline] ++ lit "Version updated successfully to "
                 ++ version_string major minor patch);;
        print (lit "Remember to rebuild the project for changes to take effect")
  end.

(** The exit status of the process: 0 when [main] returns, the code of
    [sys.exit], 1 for an exception that nobody catches. *)
Definition exit_status (r : exn + unit) : Z :=
  match r with
  | inr _ => 0
  | inl (SystemExit code) => code
  | inl (FileNotFoundError _) => 1
  end.

Definition run (project_root : string) (args : namespace) (w : world) : Z * world :=
  let '(r, w') := main project_root args w in (exit_status r, w').

(** * Notions used by the proofs *)

(** ** Separators

    Every pattern of the script starts with a character (['#'] in the header,
    ['p'] in the build file) that occurs nowhere else in the pattern, is no
    digit, and starts the replacement as well. *)

Definition sepfree (sep : ascii) (t : text) : Prop :=
  Forall (fun c => c <> sep) t.

Definition sepfree_re (sep : ascii) (p : regex) : Prop :=
  Forall (fun a => a <> Lit sep) p.

Definition anchored (sep : ascii) (p : regex) : Prop :=
  exists body, p = Lit sep :: body /\ sepfree_re sep body.

Definition anchored_text (sep : ascii) (t : text) : Prop :=
  exists tail, t = sep :: tail /\ sepfree sep tail.

(** What [re.sub] does to a segment that starts at a separator and holds no
    other one. *)
Definition seg_sub (p : regex) (repl t : text) : text :=
  match rmatch p t with
  | Some r => repl ++ r
  | None => t
  end.

Definition hash : ascii := "#"%char.

Definition p_char : ascii := "p"%char.

Definition dot : ascii := "."%char.

(** ** Digits *)

Definition head_nondigit (s : text) : Prop :=
  match s with
  | [] => True
  | c :: _ => is_digit c = false
  end.

Definition all_digits (s : text) : Prop := Forall (fun c => is_digit c = true) s.

(** What may follow [\d+] in a pattern. *)
Definition digit_stop (q : regex) : Prop :=
  q = [] \/ exists c q', q = Lit c :: q' /\ is_digit c = false.

(** The value of a decimal numeral. *)
Definition dec_value (s : text) : Z :=
  fold_left (fun acc c => 10 * acc + digit_val c) s 0.

Definition is_numeral (s : text) : bool :=
  match s with
  | [] => false
  | _ :: _ => forallb is_digit s
  end.

(** The characters of which integer literals are made. *)
Definition literal_char (c : ascii) : bool :=
  is_digit c || is_space c || Ascii.eqb c "+"%char || Ascii.eqb c "-"%char
  || Ascii.eqb c "_"%char.

(** ** The version string of the specification *)

(** The shape of a version string in the words of the specification:
    exactly three dot-separated segments, each a non-negative decimal
    integer. *)
Definition spec_version_shape (s : text) : bool :=
  match split "."%char s with
  | [a; b; c] => is_numeral a && is_numeral b && is_numeral c
  | _ => false
  end.

(** The inverse of [split]. *)
Fixpoint join (sep : ascii) (segs : list text) : text :=
  match segs with
  | [] => []
  | seg :: segs' =>
      match segs' with
      | [] => seg
      | _ :: _ => seg ++ sep :: join sep segs'
      end
  end.

(** ** The header macros *)

(** Two literal prefixes that disagree on some character. *)
Fixpoint clash (l1 l2 : text) : bool :=
  match l1, l2 with
  | a :: l1', b :: l2' => if Ascii.eqb a b then clash l1' l2' else true
  | _, _ => false
  end.

(** The literal text that starts the pattern and the replacement of a
    macro ... *)
Definition header_literal (m : macro) : text :=
  match m with
  | MAJOR => lit "#define PEHINT_VERSION_MAJOR "
  | MINOR => lit "#define PEHINT_VERSION_MINOR "
  | PATCH => lit "#define PEHINT_VERSION_PATCH "
  | STRING => lit "#define PEHINT_VERSION_STRING " ++ [dquote]
  | STRING_FULL => lit "#define PEHINT_VERSION_STRING_FULL " ++ [dquote; "v"%char]
  end.

(** ... and what follows it in either. *)
Definition header_value_re (m : macro) : regex :=
  match m with
  | MAJOR | MINOR | PATCH => [Digits]
  | STRING | STRING_FULL => triple_re ++ [Lit dquote]
  end.

Definition header_value (major minor patch : Z) (m : macro) : text :=
  match m with
  | MAJOR => py_str major
  | MINOR => py_str minor
  | PATCH => py_str patch
  | STRING | STRING_FULL => version_string major minor patch ++ [dquote]
  end.

#[global] Instance macro_eq_dec : EqDecision macro.
Proof. solve_decision. Defined.

(** The macros other than [m], in the order of the source. *)
Definition other_macros (m : macro) : list macro :=
  List.remove macro_eq_dec m header_order.

(** ** The effect of a run

    What a run of the process does, read off the driver: the exit status,
    the files it leaves and the paths it wrote, as a function of the files it
    finds. *)
Definition run_effect (project_root : string) (args : namespace)
    (fs : gmap string text) : Z * gmap string text * list string :=
  match parse_version (version args) with
  | None => (1, fs, [])
  | Some (major, minor, patch) =>
      let version_file := version_file_of project_root in
      let cmake_file := cmake_file_of project_root in
      match fs !! version_file with
      | None => (1, fs, [])
      | Some header =>
          if dry_run args then (0, fs, [])
          else
            let fs1 :=
              <[version_file := update_header_text major minor patch header]> fs in
            match fs !! cmake_file with
            | None => (1, fs1, [version_file])
            | Some content =>
                if contains (cmake_needle major minor patch) content
                then (0, fs1, [version_file])
                else if re_search cmake_pattern content
                then (0,
                      <[cmake_file :=
                          re_sub cmake_pattern (cmake_repl major minor patch) content]> fs1,
                      [version_file; cmake_file])
                else (0, fs1, [version_file])
            end
      end
  end.

(** Every occurrence of the pattern in [d] is the replacement. *)
Definition target_form (p : regex) (repl d : text) : Prop :=
  forall pre u r, d = pre ++ u -> rmatch p u = Some r -> u = repl ++ r.

(** What the header substitutions of [order] do to one segment. *)
Definition header_seg (major minor patch : Z) (order : list macro) (t : text) : text :=
  fold_left (fun acc m => seg_sub (header_pattern m) (header_repl major minor patch m) acc)
    order t.

(** Integer literals that [int] accepts: a numeral, with an optional sign
    before it and white space around. *)
Inductive int_literal : text -> Z -> Prop :=
  | literal_plain (sp a sp' : text) :
      forallb is_space sp = true -> forallb is_space sp' = true ->
      is_numeral a = true ->
      int_literal (sp ++ a ++ sp') (dec_value a)
  | literal_plus (sp a sp' : text) :
      forallb is_space sp = true -> forallb is_space sp' = true ->
      is_numeral a = true ->
      int_literal (sp ++ "+"%char :: a ++ sp') (dec_value a)
  | literal_minus (sp a sp' : text) :
      forallb is_space sp = true -> forallb is_space sp' = true ->
      is_numeral a = true ->
      int_literal (sp ++ "-"%char :: a ++ sp') (- dec_value a).

(** The value that a macro receives is negative, or one of the three in a
    version string is. *)
Definition negative_value (major minor patch : Z) (m : macro) : Prop :=
  match m with
  | MAJOR => major < 0
  | MINOR => minor < 0
  | PATCH => patch < 0
  | STRING | STRING_FULL => major < 0 \/ minor < 0 \/ patch < 0
  end.

(** * Properties of the regular-expression fragment *)

Lemma is_prefix_spec (t s : text) :
  is_prefix t s = true <-> exists r, s = t ++ r.
Proof.
  revert s. induction t as [|a t IH]; intros s; simpl.
  - split; [exists s; reflexivity | reflexivity].
  - destruct s as [|b s].
    + split; [discriminate | intros [r Hr]; discriminate].
    + rewrite andb_true_iff, IH. split.
      * intros [Hab [r ->]]. apply Ascii.eqb_eq in Hab. subst. eauto.
      * intros [r Hr]. injection Hr as -> ->. split; [apply Ascii.eqb_refl | eauto].
Qed.

(** The unfolding equations of the matcher. *)
Lemma rmatch_digits_nil (p : regex) : rmatch (Digits :: p) [] = None.
Proof. reflexivity. Qed.

Lemma rmatch_digits_cons (p : regex) (x : ascii) (s : text) :
  rmatch (Digits :: p) (x :: s) =
  if is_digit x then
    match rmatch (Digits :: p) s with
    | Some r => Some r
    | None => rmatch p s
    end
  else None.
Proof. reflexivity. Qed.

Lemma rmatch_lit_cons (c : ascii) (p : regex) (x : ascii) (s : text) :
  rmatch (Lit c :: p) (x :: s) = if Ascii.eqb x c then rmatch p s else None.
Proof. reflexivity. Qed.

Lemma rmatch_lit_nil (c : ascii) (p : regex) : rmatch (Lit c :: p) [] = None.
Proof. reflexivity. Qed.

(** A match consumes a prefix of the text, one character per atom at least. *)
Lemma rmatch_split (p : regex) (s r : text) :
  rmatch p s = Some r ->
  exists m, s = m ++ r /\ (length p <= length m)%nat.
Proof.
  revert s r. induction p as [|a p IH]; intros s r.
  - simpl. intros [= ->]. exists []. split; [reflexivity | simpl; lia].
  - destruct a as [c|].
    + destruct s as [|x s]; simpl; [discriminate|].
      destruct (Ascii.eqb x c); [|discriminate].
      intros H. apply IH in H as (m & -> & Hm).
      exists (x :: m). split; [reflexivity | simpl; lia].
    + induction s as [|x s IHs]; [discriminate|].
      rewrite rmatch_digits_cons.
      destruct (is_digit x); [|discriminate].
      destruct (rmatch (Digits :: p) s) as [r0|] eqn:Hmore.
      * intros [= ->]. destruct (IHs eq_refl) as (m & -> & Hm).
        exists (x :: m). split; [reflexivity | simpl in *; lia].
      * intros H. apply IH in H as (m & -> & Hm).
        exists (x :: m). split; [reflexivity | simpl; lia].
Qed.

Lemma rmatch_shorter (p : regex) (s r : text) :
  p <> [] -> rmatch p s = Some r -> (length r < length s)%nat.
Proof.
  intros Hp H. apply rmatch_split in H as (m & -> & Hm).
  rewrite length_app. destruct p; [congruence | simpl in Hm; lia].
Qed.

(** The amount of fuel does not matter once it exceeds the length. *)
Lemma re_sub_fuel_enough (p : regex) (repl : text) (n m : nat) (s : text) :
  (length s < n)%nat -> (length s < m)%nat ->
  re_sub_fuel n p repl s = re_sub_fuel m p repl s.
Proof.
  revert m s. induction n as [|n IH]; intros m s Hn Hm; [lia|].
  destruct m as [|m]; [lia|]. simpl.
  assert (Hcopy :
    match s with [] => [] | c :: s' => c :: re_sub_fuel n p repl s' end =
    match s with [] => [] | c :: s' => c :: re_sub_fuel m p repl s' end).
  { destruct s as [|c s']; [reflexivity|]. simpl in Hn, Hm.
    f_equal. apply IH; lia. }
  rewrite Hcopy. destruct (rmatch p s) as [rest|]; [|reflexivity].
  destruct (length rest <? length s)%nat eqn:Hlt; [|reflexivity].
  apply Nat.ltb_lt in Hlt. f_equal. apply IH; lia.
Qed.

(** The equations of [re.sub] for a pattern that cannot match the empty
    string. *)
Lemma re_sub_match (p : regex) (repl s r : text) :
  p <> [] -> rmatch p s = Some r ->
  re_sub p repl s = repl ++ re_sub p repl r.
Proof.
  intros Hp H. pose proof (rmatch_shorter _ _ _ Hp H) as Hlt.
  unfold re_sub at 1. simpl. rewrite H.
  apply Nat.ltb_lt in Hlt as Hlt'. rewrite Hlt'. f_equal.
  apply re_sub_fuel_enough; lia.
Qed.

Lemma re_sub_skip (p : regex) (repl : text) (c : ascii) (s : text) :
  rmatch p (c :: s) = None ->
  re_sub p repl (c :: s) = c :: re_sub p repl s.
Proof.
  intros H. unfold re_sub at 1.
  change (re_sub_fuel (S (length (c :: s))) p repl (c :: s))
    with (match rmatch p (c :: s) with
          | Some rest =>
              if (length rest <? length (c :: s))%nat
              then repl ++ re_sub_fuel (length (c :: s)) p repl rest
              else repl ++ c :: re_sub_fuel (length (c :: s)) p repl s
          | None => c :: re_sub_fuel (length (c :: s)) p repl s
          end).
  rewrite H. reflexivity.
Qed.

Lemma re_sub_nil (p : regex) (repl : text) :
  p <> [] -> re_sub p repl [] = [].
Proof.
  intros Hp. unfold re_sub. simpl.
  destruct (rmatch p []) as [r|] eqn:H; [|reflexivity].
  apply rmatch_shorter in H; [simpl in H; lia | assumption].
Qed.

(** A pattern that matches nowhere leaves the text as it is. *)
Lemma re_sub_no_match (p : regex) (repl s : text) :
  re_search p s = false -> re_sub p repl s = s.
Proof.
  induction s as [|c s IH]; simpl.
  - destruct (rmatch p []) eqn:H; [discriminate|]. intros _.
    unfold re_sub. simpl. rewrite H. reflexivity.
  - destruct (rmatch p (c :: s)) eqn:H; [discriminate|]. intros Hs.
    rewrite re_sub_skip by assumption. f_equal. auto.
Qed.

(** Literal prefixes of a pattern. *)
Lemma rmatch_lits_app (l : text) (p : regex) (s : text) :
  rmatch (map Lit l ++ p) (l ++ s) = rmatch p s.
Proof.
  induction l as [|c l IH]; [reflexivity|].
  simpl. rewrite Ascii.eqb_refl. exact IH.
Qed.

Lemma rmatch_lits_prefix (l : text) (p : regex) (s r : text) :
  rmatch (map Lit l ++ p) s = Some r -> exists s', s = l ++ s' /\ rmatch p s' = Some r.
Proof.
  revert s. induction l as [|c l IH]; intros s; simpl.
  - intros H. exists s. auto.
  - destruct s as [|x s]; [discriminate|].
    destruct (Ascii.eqb x c) eqn:Hx; [|discriminate].
    apply Ascii.eqb_eq in Hx as ->. intros H.
    apply IH in H as (s' & -> & H). eauto.
Qed.

(** ** Patterns anchored on a separator

    Matches of an anchored pattern can neither overlap nor straddle a
    separator, so [re.sub] works on each separator-delimited segment of the
    text on its own. *)

Section Separator.
Variable sep : ascii.
Hypothesis sep_not_digit : is_digit sep = false.

Lemma anchored_nonempty p : anchored sep p -> p <> [].
Proof. intros (body & -> & _). discriminate. Qed.

Lemma sepfree_app x y : sepfree sep (x ++ y) <-> sepfree sep x /\ sepfree sep y.
Proof. apply Forall_app. Qed.

(** The body of an anchored pattern never consumes a separator. *)
Lemma rmatch_body_app_sep body x y :
  sepfree_re sep body ->
  rmatch body (x ++ sep :: y) = option_map (fun r => r ++ sep :: y) (rmatch body x).
Proof.
  intros Hb. revert x. induction Hb as [|a body Ha Hb IH]; intros x; [reflexivity|].
  destruct a as [c|].
  - destruct x as [|c' x]; simpl.
    + destruct (Ascii.eqb sep c) eqn:E; [|reflexivity].
      apply Ascii.eqb_eq in E. congruence.
    + destruct (Ascii.eqb c' c); [apply IH | reflexivity].
  - induction x as [|c' x IHx].
    + simpl app. rewrite rmatch_digits_cons, sep_not_digit. reflexivity.
    + simpl app. rewrite !rmatch_digits_cons.
      destruct (is_digit c'); [|reflexivity].
      rewrite IHx. destruct (rmatch (Digits :: body) x); [reflexivity|].
      simpl. apply IH.
Qed.

Lemma rmatch_body_split body s r :
  sepfree_re sep body -> rmatch body s = Some r ->
  exists m, s = m ++ r /\ sepfree sep m.
Proof.
  intros Hb. revert s. induction Hb as [|a body Ha Hb IH]; intros s.
  - simpl. intros [= ->]. exists []. split; [reflexivity | constructor].
  - destruct a as [c|].
    + destruct s as [|x s]; simpl; [discriminate|].
      destruct (Ascii.eqb x c) eqn:E; [|discriminate].
      apply Ascii.eqb_eq in E as ->.
      intros H. apply IH in H as (m & -> & Hm).
      exists (c :: m). split; [reflexivity|].
      constructor; [congruence | assumption].
    + induction s as [|x s IHs]; [discriminate|].
      rewrite rmatch_digits_cons.
      destruct (is_digit x) eqn:Hx; [|discriminate].
      assert (x <> sep) by (intros ->; congruence).
      destruct (rmatch (Digits :: body) s) as [r0|] eqn:Hmore.
      * intros [= ->]. destruct (IHs eq_refl) as (m & -> & Hm).
        exists (x :: m). split; [reflexivity | constructor; assumption].
      * intros H'. apply IH in H' as (m & -> & Hm).
        exists (x :: m). split; [reflexivity | constructor; assumption].
Qed.

(** An anchored pattern matches only at a separator ... *)
Lemma rmatch_anchored_other p c s :
  anchored sep p -> c <> sep -> rmatch p (c :: s) = None.
Proof.
  intros (body & -> & _) Hc. simpl.
  destruct (Ascii.eqb c sep) eqn:E; [|reflexivity].
  apply Ascii.eqb_eq in E. contradiction.
Qed.

Lemma rmatch_anchored_nil p : anchored sep p -> rmatch p [] = None.
Proof. intros (body & -> & _). reflexivity. Qed.

(** ... and its match is the separator followed by separator-free text. *)
Lemma rmatch_anchored_split p s r :
  anchored sep p -> rmatch p s = Some r ->
  exists m, s = sep :: m ++ r /\ sepfree sep m.
Proof.
  intros (body & -> & Hb). destruct s as [|x s]; simpl; [discriminate|].
  destruct (Ascii.eqb x sep) eqn:E; [|discriminate].
  apply Ascii.eqb_eq in E as ->. intros H.
  apply rmatch_body_split in H as (m & -> & Hm); eauto.
Qed.

(** The text after the next separator has no influence on a match. *)
Lemma rmatch_anchored_app_sep p c x y :
  anchored sep p ->
  rmatch p (c :: x ++ sep :: y) =
  option_map (fun r => r ++ sep :: y) (rmatch p (c :: x)).
Proof.
  intros (body & -> & Hb). simpl.
  destruct (Ascii.eqb c sep); [|reflexivity].
  apply rmatch_body_app_sep; assumption.
Qed.

Section Sub.
Variables (p : regex) (repl : text).
Hypothesis Hp : anchored sep p.

Lemma re_sub_sepfree_app x t :
  sepfree sep x -> re_sub p repl (x ++ t) = x ++ re_sub p repl t.
Proof.
  induction 1 as [|c x Hc Hx IH]; [reflexivity|].
  simpl. rewrite re_sub_skip by (apply rmatch_anchored_other; assumption).
  f_equal. exact IH.
Qed.

Lemma re_sub_sepfree x : sepfree sep x -> re_sub p repl x = x.
Proof.
  intros Hx. rewrite <- (app_nil_r x) at 1.
  rewrite re_sub_sepfree_app by assumption.
  rewrite re_sub_nil by (apply anchored_nonempty; assumption).
  apply app_nil_r.
Qed.

(** [re.sub] distributes over a split of the text at a separator. *)
Lemma re_sub_app_sep x y :
  re_sub p repl (x ++ sep :: y) = re_sub p repl x ++ re_sub p repl (sep :: y).
Proof.
  remember (length x) as n eqn:Hn. revert x Hn.
  induction n as [n IH] using lt_wf_ind. intros x Hn.
  destruct x as [|c x].
  - simpl. rewrite re_sub_nil by (apply anchored_nonempty; assumption).
    reflexivity.
  - simpl app. pose proof (rmatch_anchored_app_sep p c x y Hp) as E.
    destruct (rmatch p (c :: x)) as [r|] eqn:Hm; simpl in E.
    + pose proof (rmatch_shorter _ _ _ (anchored_nonempty _ Hp) Hm) as Hlt.
      rewrite (re_sub_match _ _ _ _ (anchored_nonempty _ Hp) E).
      rewrite (re_sub_match _ _ _ _ (anchored_nonempty _ Hp) Hm).
      rewrite (IH (length r)); [|subst n; exact Hlt|reflexivity].
      rewrite app_assoc. reflexivity.
    + rewrite (re_sub_skip _ _ _ _ E), (re_sub_skip _ _ _ _ Hm).
      simpl. f_equal. apply (IH (length x)); [subst n; simpl; lia | reflexivity].
Qed.

Lemma re_sub_segment y :
  sepfree sep y -> re_sub p repl (sep :: y) = seg_sub p repl (sep :: y).
Proof.
  intros Hy. unfold seg_sub.
  destruct (rmatch p (sep :: y)) as [r|] eqn:Hm.
  - rewrite (re_sub_match _ _ _ _ (anchored_nonempty _ Hp) Hm). f_equal.
    apply rmatch_anchored_split in Hm as (m & E & Hm); [|assumption].
    injection E as ->. apply re_sub_sepfree.
    apply sepfree_app in Hy. tauto.
  - rewrite (re_sub_skip _ _ _ _ Hm). f_equal. apply re_sub_sepfree. assumption.
Qed.

Lemma re_sub_app_segment x y :
  sepfree sep y ->
  re_sub p repl (x ++ sep :: y) = re_sub p repl x ++ seg_sub p repl (sep :: y).
Proof. intros Hy. rewrite re_sub_app_sep, re_sub_segment by assumption. reflexivity. Qed.

Hypothesis Hrepl : anchored_text sep repl.

Lemma seg_sub_anchored t : anchored_text sep t -> anchored_text sep (seg_sub p repl t).
Proof.
  intros (y & -> & Hy). unfold seg_sub.
  destruct (rmatch p (sep :: y)) as [r|] eqn:Hm; [|exists y; auto].
  destruct Hrepl as (tail & -> & Htail).
  apply rmatch_anchored_split in Hm as (m & E & Hm); [|assumption].
  injection E as ->. exists (tail ++ r). split; [reflexivity|].
  apply sepfree_app. apply sepfree_app in Hy. tauto.
Qed.

(** The first character of a text survives the substitution. *)
Lemma re_sub_head_sep y : exists y', re_sub p repl (sep :: y) = sep :: y'.
Proof.
  destruct (rmatch p (sep :: y)) as [r|] eqn:Hm.
  - rewrite (re_sub_match _ _ _ _ (anchored_nonempty _ Hp) Hm).
    destruct Hrepl as (tail & -> & _). simpl. eauto.
  - rewrite (re_sub_skip _ _ _ _ Hm). eauto.
Qed.

(** Every occurrence of the pattern is replaced, whatever precedes and
    whatever follows it. *)
Lemma re_sub_occurrence pre occ post :
  rmatch p (occ ++ post) = Some post ->
  re_sub p repl (pre ++ occ ++ post) =
  re_sub p repl pre ++ repl ++ re_sub p repl post.
Proof.
  intros Hm.
  destruct (rmatch_anchored_split _ _ _ Hp Hm) as (m & E & _).
  rewrite E, re_sub_app_sep, <- E. f_equal.
  apply re_sub_match; [apply anchored_nonempty|]; assumption.
Qed.
End Sub.

(** Texts are built from separator-free pieces. *)
Lemma sep_split (s : text) :
  sepfree sep s \/ exists x y, s = x ++ sep :: y /\ sepfree sep y.
Proof.
  induction s as [|c s [IH|(x & y & -> & Hy)]].
  - left. constructor.
  - destruct (ascii_dec c sep) as [->|Hc].
    + right. exists [], s. auto.
    + left. constructor; assumption.
  - right. exists (c :: x), y. auto.
Qed.

Lemma segment_ind (P : text -> Prop) :
  (forall y, sepfree sep y -> P y) ->
  (forall x y, sepfree sep y -> P x -> P (x ++ sep :: y)) ->
  forall s, P s.
Proof.
  intros Hbase Hstep s.
  remember (length s) as n eqn:Hn. revert s Hn.
  induction n as [n IH] using lt_wf_ind. intros s Hn.
  destruct (sep_split s) as [Hs|(x & y & -> & Hy)]; [auto|].
  apply Hstep; [assumption|].
  apply (IH (length x)); [|reflexivity].
  subst n. rewrite length_app. simpl. lia.
Qed.
End Separator.

(** ** Two substitutions on the same separator *)

Section Commute.
Variable sep : ascii.
Hypothesis sep_not_digit : is_digit sep = false.
Variables (p1 p2 : regex) (repl1 repl2 : text).
Hypotheses (Hp1 : anchored sep p1) (Hp2 : anchored sep p2).
Hypotheses (Hr1 : anchored_text sep repl1) (Hr2 : anchored_text sep repl2).
(** No text is matched by both patterns, and the replacement of one is
    never matched by the other. *)
Hypothesis disjoint : forall t, rmatch p1 t = None \/ rmatch p2 t = None.
Hypothesis repl1_p2 : forall r, rmatch p2 (repl1 ++ r) = None.
Hypothesis repl2_p1 : forall r, rmatch p1 (repl2 ++ r) = None.

Lemma seg_sub_comm t :
  seg_sub p2 repl2 (seg_sub p1 repl1 t) = seg_sub p1 repl1 (seg_sub p2 repl2 t).
Proof.
  unfold seg_sub.
  destruct (rmatch p1 t) as [r1|] eqn:H1; destruct (rmatch p2 t) as [r2|] eqn:H2.
  - destruct (disjoint t); congruence.
  - rewrite repl1_p2, H1. reflexivity.
  - rewrite repl2_p1. reflexivity.
  - rewrite H1. reflexivity.
Qed.

Lemma re_sub_comm s :
  re_sub p2 repl2 (re_sub p1 repl1 s) = re_sub p1 repl1 (re_sub p2 repl2 s).
Proof.
  induction s as [y Hy|x y Hy IH] using (segment_ind sep).
  - rewrite (re_sub_sepfree sep p1 repl1 Hp1 y Hy).
    rewrite (re_sub_sepfree sep p2 repl2 Hp2 y Hy).
    symmetry. apply (re_sub_sepfree sep p1 repl1 Hp1 y Hy).
  - rewrite (re_sub_app_segment sep sep_not_digit p1 repl1 Hp1 x y Hy).
    rewrite (re_sub_app_segment sep sep_not_digit p2 repl2 Hp2 x y Hy).
    destruct (seg_sub_anchored sep sep_not_digit p1 repl1 Hp1 Hr1 (sep :: y))
      as (y1 & E1 & Hy1); [exists y; auto|].
    destruct (seg_sub_anchored sep sep_not_digit p2 repl2 Hp2 Hr2 (sep :: y))
      as (y2 & E2 & Hy2); [exists y; auto|].
    pose proof (seg_sub_comm (sep :: y)) as C. rewrite E1, E2 in *.
    rewrite (re_sub_app_segment sep sep_not_digit p2 repl2 Hp2 _ y1 Hy1).
    rewrite (re_sub_app_segment sep sep_not_digit p1 repl1 Hp1 _ y2 Hy2).
    rewrite IH, C. reflexivity.
Qed.
End Commute.

Section Idempotent.
Variable sep : ascii.
Hypothesis sep_not_digit : is_digit sep = false.
Variables (p : regex) (repl : text).
Hypotheses (Hp : anchored sep p) (Hr : anchored_text sep repl).
(** Matching the replacement again consumes the replacement and no more. *)
Hypothesis stable :
  forall t r, rmatch p t = Some r -> seg_sub p repl (repl ++ r) = repl ++ r.

Lemma seg_sub_idem t : seg_sub p repl (seg_sub p repl t) = seg_sub p repl t.
Proof.
  unfold seg_sub at 2 3. destruct (rmatch p t) as [r|] eqn:H.
  - eapply stable; eassumption.
  - unfold seg_sub. rewrite H. reflexivity.
Qed.

Lemma re_sub_idem s : re_sub p repl (re_sub p repl s) = re_sub p repl s.
Proof.
  induction s as [y Hy|x y Hy IH] using (segment_ind sep).
  - rewrite (re_sub_sepfree sep p repl Hp y Hy).
    apply (re_sub_sepfree sep p repl Hp y Hy).
  - rewrite (re_sub_app_segment sep sep_not_digit p repl Hp x y Hy).
    destruct (seg_sub_anchored sep sep_not_digit p repl Hp Hr (sep :: y))
      as (y1 & E1 & Hy1); [exists y; auto|].
    pose proof (seg_sub_idem (sep :: y)) as C. rewrite E1 in *.
    rewrite (re_sub_app_segment sep sep_not_digit p repl Hp _ y1 Hy1).
    rewrite IH, C. reflexivity.
Qed.
End Idempotent.

(** ** Greedy digits without surprises

    In the patterns of the script every [\d+] is followed by a character that
    is no digit, or ends the pattern.  Backtracking then never finds a second
    way to match: a run of digits is consumed whole. *)

Lemma rmatch_digits_head_nondigit (q : regex) (s : text) :
  head_nondigit s -> rmatch (Digits :: q) s = None.
Proof.
  destruct s as [|c s]; [reflexivity|]. simpl head_nondigit. intros H.
  rewrite rmatch_digits_cons, H. reflexivity.
Qed.

Lemma rmatch_digits_run (q : regex) (ds s : text) :
  digit_stop q -> ds <> [] -> all_digits ds -> head_nondigit s ->
  rmatch (Digits :: q) (ds ++ s) = rmatch q s.
Proof.
  intros Hq Hne Hds Hs. induction Hds as [|d ds Hd Hds IH]; [congruence|].
  simpl app. rewrite rmatch_digits_cons, Hd.
  destruct ds as [|d' ds].
  - cbn [app]. rewrite rmatch_digits_head_nondigit by assumption. reflexivity.
  - rewrite IH by discriminate.
    destruct (rmatch q s) as [r|] eqn:E; [reflexivity|].
    destruct Hq as [->|(c & q' & -> & Hc)]; [discriminate|].
    cbn [app]. rewrite rmatch_lit_cons.
    destruct (Ascii.eqb d' c) eqn:E'; [|reflexivity].
    apply Ascii.eqb_eq in E' as ->. inversion Hds; congruence.
Qed.

(** After a pattern that ends in [\d+], no digit follows the match. *)
Lemma rmatch_digits_last (p : regex) (s r : text) :
  rmatch (p ++ [Digits]) s = Some r -> head_nondigit r.
Proof.
  revert s. induction p as [|a p IH]; intros s.
  - simpl app. induction s as [|x s IHs]; [discriminate|].
    rewrite rmatch_digits_cons. destruct (is_digit x); [|discriminate].
    destruct (rmatch [Digits] s) as [r0|] eqn:E.
    + intros [= ->]. auto.
    + simpl. intros [= ->]. destruct r as [|c r]; [exact I|].
      simpl. destruct (is_digit c) eqn:Hc; [|reflexivity].
      rewrite rmatch_digits_cons, Hc in E. destruct (rmatch [Digits] r); discriminate.
  - destruct a as [c|].
    + destruct s as [|x s]; simpl; [discriminate|].
      destruct (Ascii.eqb x c); [apply IH | discriminate].
    + simpl app. induction s as [|x s IHs]; [discriminate|].
      rewrite rmatch_digits_cons. destruct (is_digit x); [|discriminate].
      destruct (rmatch (Digits :: p ++ [Digits]) s) as [r0|] eqn:E.
      * intros [= ->]. auto.
      * apply IH.
Qed.

(** ** The decimal printer *)

Lemma string_of_uint_digits (d : Decimal.uint) :
  all_digits (lit (NilEmpty.string_of_uint d)).
Proof.
  induction d; simpl; constructor; solve [reflexivity | assumption].
Qed.

Lemma py_str_nonneg (z : Z) :
  0 <= z -> all_digits (py_str z) /\ py_str z <> [].
Proof.
  intros Hz. unfold py_str. destruct z as [|p|p]; [| |lia].
  - split; [repeat constructor | discriminate].
  - simpl. destruct (Pos.to_uint p) eqn:E; simpl;
      (split; [|discriminate]);
      try (rewrite <- E at 1);
      first [ repeat constructor; fail
            | constructor; [reflexivity | apply string_of_uint_digits] ].
Qed.

Lemma py_str_neg (z : Z) :
  z < 0 -> exists d, py_str z = "-"%char :: d.
Proof.
  intros Hz. unfold py_str. destruct z as [|p|p]; [lia|lia|].
  simpl. eauto.
Qed.

(** The characters of a printed integer: digits and the minus sign. *)
Lemma py_str_chars (z : Z) :
  Forall (fun c => is_digit c = true \/ c = "-"%char) (py_str z).
Proof.
  destruct (Z_lt_le_dec z 0) as [Hz|Hz].
  - unfold py_str. destruct z as [|p|p]; [lia|lia|]. simpl.
    constructor; [right; reflexivity|].
    pose proof (py_str_nonneg (Z.pos p) ltac:(lia)) as [H _].
    unfold py_str in H. simpl in H.
    eapply Forall_impl; [exact H | simpl; auto].
  - destruct (py_str_nonneg z Hz) as [H _].
    eapply Forall_impl; [exact H | simpl; auto].
Qed.

Lemma rmatch_py_str (q : regex) (z : Z) (s : text) :
  digit_stop q -> head_nondigit s ->
  rmatch (Digits :: q) (py_str z ++ s) = if 0 <=? z then rmatch q s else None.
Proof.
  intros Hq Hs. destruct (Z.leb_spec 0 z) as [Hz|Hz].
  - destruct (py_str_nonneg z Hz) as [Hd Hne].
    apply rmatch_digits_run; assumption.
  - destruct (py_str_neg z Hz) as (d & ->). reflexivity.
Qed.

Lemma version_string_app (major minor patch : Z) (s : text) :
  version_string major minor patch ++ s =
  py_str major ++ "."%char :: py_str minor ++ "."%char :: py_str patch ++ s.
Proof.
  unfold version_string. cbn [lit list_ascii_of_string].
  rewrite <- !app_assoc. reflexivity.
Qed.

(** [\d+\.\d+\.\d+] against a printed version triple. *)
Lemma rmatch_version_string (q : regex) (major minor patch : Z) (s : text) :
  digit_stop q -> head_nondigit s ->
  rmatch (triple_re ++ q) (version_string major minor patch ++ s) =
  if (0 <=? major) && (0 <=? minor) && (0 <=? patch) then rmatch q s else None.
Proof.
  intros Hq Hs. rewrite version_string_app. unfold triple_re. cbn [app].
  assert (Hdot : forall q', digit_stop (Lit "."%char :: q')).
  { intros q'. right. eexists _, _. split; reflexivity. }
  rewrite rmatch_py_str; [|apply Hdot|reflexivity].
  destruct (0 <=? major); [|reflexivity]. cbn [andb].
  rewrite rmatch_lit_cons. cbn [Ascii.eqb Bool.eqb].
  rewrite rmatch_py_str; [|apply Hdot|reflexivity].
  destruct (0 <=? minor); [|reflexivity]. cbn [andb].
  rewrite rmatch_lit_cons. cbn [Ascii.eqb Bool.eqb].
  rewrite rmatch_py_str; [|assumption|assumption].
  reflexivity.
Qed.

(** ** Texts that avoid a character *)

(** Checking by computation that a closed text or pattern avoids a
    character. *)
Lemma sepfree_check (sep : ascii) (t : text) :
  forallb (fun c => negb (Ascii.eqb c sep)) t = true -> sepfree sep t.
Proof.
  induction t as [|c t IH]; simpl; [constructor|].
  rewrite andb_true_iff, negb_true_iff. intros [Hc Ht].
  constructor; [|exact (IH Ht)]. intros ->. rewrite Ascii.eqb_refl in Hc. discriminate.
Qed.

Lemma sepfree_re_check (sep : ascii) (p : regex) :
  forallb (fun a => match a with
                    | Lit c => negb (Ascii.eqb c sep)
                    | Digits => true
                    end) p = true ->
  sepfree_re sep p.
Proof.
  induction p as [|a p IH]; simpl; [constructor|].
  rewrite andb_true_iff. intros [Ha Hp]. constructor; [|exact (IH Hp)].
  destruct a as [c|]; [|discriminate].
  intros [= ->]. rewrite Ascii.eqb_refl in Ha. discriminate.
Qed.

Lemma sepfree_py_str (sep : ascii) (z : Z) :
  is_digit sep = false -> sep <> "-"%char -> sepfree sep (py_str z).
Proof.
  intros Hd Hm. eapply Forall_impl; [apply py_str_chars|].
  simpl. intros c [Hc| ->] E; congruence.
Qed.

Lemma sepfree_version_string (sep : ascii) (major minor patch : Z) :
  is_digit sep = false -> sep <> "-"%char -> sep <> "."%char ->
  sepfree sep (version_string major minor patch).
Proof.
  intros Hd Hm Hdot. unfold version_string.
  repeat (apply sepfree_app; split);
    try (apply sepfree_py_str; assumption);
    (constructor; [congruence | constructor]).
Qed.

Lemma clash_rmatch (l1 l2 : text) (q : regex) (s : text) :
  clash l1 l2 = true -> rmatch (map Lit l2 ++ q) (l1 ++ s) = None.
Proof.
  revert l2. induction l1 as [|a l1 IH]; intros [|b l2]; simpl; try discriminate.
  destruct (Ascii.eqb a b); [apply IH | reflexivity].
Qed.

(** * The header substitutions *)

Lemma header_pattern_eq (m : macro) :
  header_pattern m = map Lit (header_literal m) ++ header_value_re m.
Proof. destruct m; reflexivity. Qed.

Lemma header_repl_eq (major minor patch : Z) (m : macro) :
  header_repl major minor patch m =
  header_literal m ++ header_value major minor patch m.
Proof.
  destruct m; unfold header_repl, header_literal, header_value;
    rewrite <- ?app_assoc; reflexivity.
Qed.

Lemma hash_not_digit : is_digit hash = false.
Proof. reflexivity. Qed.

Lemma header_pattern_anchored (m : macro) : anchored hash (header_pattern m).
Proof.
  exists (tl (header_pattern m)). split; [destruct m; reflexivity|].
  apply sepfree_re_check. destruct m; reflexivity.
Qed.

Lemma header_value_sepfree (major minor patch : Z) (m : macro) :
  sepfree hash (header_value major minor patch m).
Proof.
  destruct m; simpl;
    try (apply sepfree_py_str; [reflexivity | discriminate]);
    (apply sepfree_app; split;
       [apply sepfree_version_string; [reflexivity | discriminate | discriminate]
       |apply sepfree_check; reflexivity]).
Qed.

Lemma header_repl_anchored (major minor patch : Z) (m : macro) :
  anchored_text hash (header_repl major minor patch m).
Proof.
  rewrite header_repl_eq.
  exists (tl (header_literal m) ++ header_value major minor patch m).
  split; [destruct m; reflexivity|].
  apply sepfree_app. split; [|apply header_value_sepfree].
  apply sepfree_check. destruct m; reflexivity.
Qed.

Lemma header_clash (m1 m2 : macro) :
  m1 <> m2 -> clash (header_literal m1) (header_literal m2) = true.
Proof. destruct m1, m2; intros H; try congruence; reflexivity. Qed.

(** The five patterns are pairwise disjoint. *)
Lemma header_disjoint (m1 m2 : macro) (t : text) :
  m1 <> m2 ->
  rmatch (header_pattern m1) t = None \/ rmatch (header_pattern m2) t = None.
Proof.
  intros Hne. destruct (rmatch (header_pattern m1) t) as [r|] eqn:H; [|auto].
  right. rewrite header_pattern_eq in H.
  apply rmatch_lits_prefix in H as (s' & -> & _).
  rewrite header_pattern_eq. apply clash_rmatch, header_clash, Hne.
Qed.

Lemma header_repl_other (major minor patch : Z) (m1 m2 : macro) (r : text) :
  m1 <> m2 ->
  rmatch (header_pattern m2) (header_repl major minor patch m1 ++ r) = None.
Proof.
  intros Hne. rewrite header_pattern_eq, header_repl_eq, <- app_assoc.
  apply clash_rmatch, header_clash, Hne.
Qed.

(** Any two of the five substitutions commute. *)
Lemma header_sub_comm (major minor patch : Z) (m1 m2 : macro) (s : text) :
  header_sub major minor patch m2 (header_sub major minor patch m1 s) =
  header_sub major minor patch m1 (header_sub major minor patch m2 s).
Proof.
  destruct (decide (m1 = m2)) as [->|Hne]; [reflexivity|].
  unfold header_sub. apply (re_sub_comm hash hash_not_digit).
  - apply header_pattern_anchored.
  - apply header_pattern_anchored.
  - apply header_repl_anchored.
  - apply header_repl_anchored.
  - intros t. apply header_disjoint, Hne.
  - intros r. apply header_repl_other, Hne.
  - intros r. apply header_repl_other. congruence.
Qed.

Lemma dquote_not_digit : is_digit dquote = false.
Proof. reflexivity. Qed.

(** Matching a replacement again: either it is consumed exactly (all three
    numbers are non-negative) or it does not match at all. *)
Lemma header_stable (major minor patch : Z) (m : macro) (t r : text) :
  rmatch (header_pattern m) t = Some r ->
  seg_sub (header_pattern m) (header_repl major minor patch m)
          (header_repl major minor patch m ++ r) =
  header_repl major minor patch m ++ r.
Proof.
  intros H. unfold seg_sub.
  assert (E : rmatch (header_pattern m) (header_repl major minor patch m ++ r) = Some r
              \/ rmatch (header_pattern m) (header_repl major minor patch m ++ r) = None);
    [|destruct E as [-> | ->]; reflexivity].
  rewrite header_pattern_eq, header_repl_eq, <- app_assoc, rmatch_lits_app.
  assert (Hnum : forall z, head_nondigit r ->
            rmatch [Digits] (py_str z ++ r) = Some r \/ rmatch [Digits] (py_str z ++ r) = None).
  { intros z Hr. rewrite rmatch_py_str; [|left; reflexivity|assumption].
    destruct (0 <=? z); auto. }
  assert (Hver :
    rmatch (triple_re ++ [Lit dquote]) ((version_string major minor patch ++ [dquote]) ++ r) = Some r
    \/ rmatch (triple_re ++ [Lit dquote]) ((version_string major minor patch ++ [dquote]) ++ r) = None).
  { rewrite <- app_assoc. cbn [app].
    rewrite rmatch_version_string;
      [|right; eexists _, _; split; [reflexivity | apply dquote_not_digit]
       |apply dquote_not_digit].
    destruct ((0 <=? major) && (0 <=? minor) && (0 <=? patch)); [|auto].
    left. rewrite rmatch_lit_cons, Ascii.eqb_refl. reflexivity. }
  destruct m; cbn [header_value_re header_value];
    solve [ exact Hver
          | apply Hnum; exact (rmatch_digits_last _ _ _ H) ].
Qed.

Lemma header_sub_idem (major minor patch : Z) (m : macro) (s : text) :
  header_sub major minor patch m (header_sub major minor patch m s) =
  header_sub major minor patch m s.
Proof.
  unfold header_sub. apply (re_sub_idem hash hash_not_digit).
  - apply header_pattern_anchored.
  - apply header_repl_anchored.
  - intros t r. apply header_stable.
Qed.

(** The source applies the substitutions in the order [header_order]. *)
Lemma update_header_text_eq (major minor patch : Z) (content : text) :
  update_header_text major minor patch content =
  apply_subs major minor patch header_order content.
Proof. reflexivity. Qed.

Lemma apply_subs_cons (major minor patch : Z) (m : macro) (l : list macro) (s : text) :
  apply_subs major minor patch (m :: l) s =
  apply_subs major minor patch l (header_sub major minor patch m s).
Proof. reflexivity. Qed.

Lemma header_sub_apply_subs (major minor patch : Z) (m : macro) (l : list macro) (s : text) :
  header_sub major minor patch m (apply_subs major minor patch l s) =
  apply_subs major minor patch l (header_sub major minor patch m s).
Proof.
  revert s. induction l as [|x l IH]; intros s; [reflexivity|].
  rewrite !apply_subs_cons, IH, header_sub_comm. reflexivity.
Qed.

Lemma apply_subs_perm (major minor patch : Z) (l1 l2 : list macro) :
  Permutation l1 l2 ->
  forall s, apply_subs major minor patch l1 s = apply_subs major minor patch l2 s.
Proof.
  induction 1 as [|x l1 l2 _ IH|x y l|l1 l2 l3 _ IH1 _ IH2]; intros s.
  - reflexivity.
  - rewrite !apply_subs_cons. apply IH.
  - rewrite !apply_subs_cons, header_sub_comm. reflexivity.
  - rewrite IH1. apply IH2.
Qed.

Lemma apply_subs_idem (major minor patch : Z) (l : list macro) (s : text) :
  apply_subs major minor patch l (apply_subs major minor patch l s) =
  apply_subs major minor patch l s.
Proof.
  revert s. induction l as [|x l IH]; intros s; [reflexivity|].
  rewrite !apply_subs_cons, header_sub_apply_subs, header_sub_idem. apply IH.
Qed.

(** * The driver *)

(** How the steps of a computation compose. *)
Lemma bind_print {A : Type} (line : text) (k : M A) (w : world) :
  (print line ;; k) w = k (World (files w) (stdout w ++ [line]) (writes w)).
Proof. reflexivity. Qed.

Lemma bind_path_exists {A : Type} (path : string) (k : bool -> M A) (w : world) :
  (found ← path_exists path; k found) w =
  k (bool_decide (is_Some (files w !! path))) w.
Proof. reflexivity. Qed.

Lemma bind_read_text_some {A : Type} (path : string) (content : text) (k : text -> M A) (w : world) :
  files w !! path = Some content ->
  (c ← read_text path; k c) w = k content w.
Proof.
  intros H. unfold mbind, M_bind, read_text. rewrite H. reflexivity.
Qed.

Lemma bind_write_text {A : Type} (path : string) (content : text) (k : M A) (w : world) :
  (write_text path content ;; k) w =
  k (World (<[path := content]> (files w)) (stdout w) (writes w ++ [path])).
Proof. reflexivity. Qed.

(** The header updater on a file that exists. *)
Lemma update_version_header_run (version_file : string) (major minor patch : Z)
    (content : text) (w : world) :
  files w !! version_file = Some content ->
  update_version_header version_file major minor patch w =
  (inr tt,
   World (<[version_file := update_header_text major minor patch content]> (files w))
         (stdout w ++ [lit "Updated " ++ lit version_file ++ lit " to version "
                         ++ version_string major minor patch])
         (writes w ++ [version_file])).
Proof.
  intros H. unfold update_version_header.
  rewrite (bind_read_text_some _ _ _ _ H), bind_write_text. reflexivity.
Qed.

(** The three outcomes of the build-file updater on a file that exists. *)
Lemma update_cmake_version_current (cmake_file : string) (major minor patch : Z)
    (content : text) (w : world) :
  files w !! cmake_file = Some content ->
  contains (cmake_needle major minor patch) content = true ->
  update_cmake_version cmake_file major minor patch w =
  (inr tt,
   World (files w)
         (stdout w ++ [lit "CMakeLists.txt already has correct version "
                         ++ version_string major minor patch])
         (writes w)).
Proof.
  intros H Hc. unfold update_cmake_version.
  rewrite (bind_read_text_some _ _ _ _ H), Hc. reflexivity.
Qed.

Lemma update_cmake_version_updated (cmake_file : string) (major minor patch : Z)
    (content : text) (w : world) :
  files w !! cmake_file = Some content ->
  contains (cmake_needle major minor patch) content = false ->
  re_search cmake_pattern content = true ->
  update_cmake_version cmake_file major minor patch w =
  (inr tt,
   World (<[cmake_file := re_sub cmake_pattern (cmake_repl major minor patch) content]>
            (files w))
         (stdout w ++ [lit "Updated " ++ lit cmake_file ++ lit " to version "
                         ++ version_string major minor patch])
         (writes w ++ [cmake_file])).
Proof.
  intros H Hc Hs. unfold update_cmake_version.
  rewrite (bind_read_text_some _ _ _ _ H), Hc, Hs, bind_write_text. reflexivity.
Qed.

Lemma update_cmake_version_absent (cmake_file : string) (major minor patch : Z)
    (content : text) (w : world) :
  files w !! cmake_file = Some content ->
  contains (cmake_needle major minor patch) content = false ->
  re_search cmake_pattern content = false ->
  update_cmake_version cmake_file major minor patch w =
  (inr tt,
   World (files w)
         (stdout w ++ [lit "No hardcoded version found in " ++ lit cmake_file])
         (writes w)).
Proof.
  intros H Hc Hs. unfold update_cmake_version.
  rewrite (bind_read_text_some _ _ _ _ H), Hc, Hs. reflexivity.
Qed.

(** The two target files are different files. *)
Lemma append_inj_l (a b c : string) : String.append a b = String.append a c -> b = c.
Proof.
  induction a as [|x a IH]; [auto|].
  change (String x (String.append a b) = String x (String.append a c) -> b = c).
  intros [= H]. auto.
Qed.

Lemma append_assoc (a b c : string) :
  String.append (String.append a b) c = String.append a (String.append b c).
Proof.
  induction a as [|x a IH]; [reflexivity|].
  change (String x (String.append (String.append a b) c) =
          String x (String.append a (String.append b c))).
  f_equal. exact IH.
Qed.

Lemma version_file_not_cmake_file (project_root : string) :
  version_file_of project_root <> cmake_file_of project_root.
Proof.
  unfold version_file_of, cmake_file_of, joinpath.
  rewrite append_assoc. intros H. apply append_inj_l in H. discriminate.
Qed.

(** The driver after a successful parse, case by case. *)
Lemma main_missing_header (project_root : string) (args : namespace)
    (major minor patch : Z) (w : world) :
  parse_version (version args) = Some (major, minor, patch) ->
  files w !! version_file_of project_root = None ->
  main project_root args w =
  (inl (SystemExit 1),
   World (files w)
         (stdout w ++
            [lit "Updating PEHint to version " ++ version_string major minor patch;
             lit "Error: " ++ lit (version_file_of project_root) ++ lit " not found"])
         (writes w)).
Proof.
  intros Hp Hf. unfold main. rewrite Hp, bind_print, bind_path_exists.
  cbn [files]. rewrite Hf.
  rewrite bool_decide_eq_false_2 by (intros [? ?]; discriminate).
  cbn [negb]. rewrite bind_print. cbn. rewrite <- app_assoc. reflexivity.
Qed.

Lemma main_dry_run (project_root : string) (args : namespace)
    (major minor patch : Z) (w : world) :
  parse_version (version args) = Some (major, minor, patch) ->
  is_Some (files w !! version_file_of project_root) ->
  dry_run args = true ->
  main project_root args w =
  (inr tt,
   World (files w)
         (stdout w ++
            [lit "Updating PEHint to version " ++ version_string major minor patch;
             lit "DRY RUN - No changes will be made";
             lit "Would update " ++ lit (version_file_of project_root)
               ++ lit " to version " ++ version_string major minor patch;
             lit "Would check " ++ lit (cmake_file_of project_root)
               ++ lit " for hardcoded versions"])
         (writes w)).
Proof.
  intros Hp Hf Hd. unfold main. rewrite Hp, bind_print, bind_path_exists.
  cbn [files]. rewrite bool_decide_eq_true_2 by assumption.
  cbn [negb]. rewrite Hd, !bind_print. unfold print. cbn.
  rewrite <- !app_assoc. reflexivity.
Qed.

Lemma main_parse_error (project_root : string) (args : namespace) (w : world) :
  parse_version (version args) = None ->
  main project_root args w =
  (inl (SystemExit 1),
   World (files w)
         (stdout w ++ [lit "Error: Version must be in format X.Y.Z (e.g., 0.4.2)"])
         (writes w)).
Proof. intros Hp. unfold main. rewrite Hp. reflexivity. Qed.

(** The driver when it applies the update: the header is rewritten, then the
    build file is examined, then the summary is printed. *)
Lemma main_apply (project_root : string) (args : namespace)
    (major minor patch : Z) (header : text) (w : world) :
  parse_version (version args) = Some (major, minor, patch) ->
  files w !! version_file_of project_root = Some header ->
  dry_run args = false ->
  main project_root args w =
  let w1 :=
    World (<[version_file_of project_root := update_header_text major minor patch header]>
             (files w))
          (stdout w ++
             [lit "Updating PEHint to version " ++ version_string major minor patch;
              lit "Updated " ++ lit (version_file_of project_root)
                ++ lit " to version " ++ version_string major minor patch])
          (writes w ++ [version_file_of project_root]) in
  match update_cmake_version (cmake_file_of project_root) major minor patch w1 with
  | (inl e, w2) => (inl e, w2)
  | (inr _, w2) =>
      (inr tt,
       World (files w2)
             (stdout w2 ++
                [[newline] ++ lit "Version updated successfully to "
                   ++ version_string major minor patch;
                 lit "Remember to rebuild the project for changes to take effect"])
             (writes w2))
  end.
Proof.
  intros Hp Hf Hd. unfold main. rewrite Hp, bind_print, bind_path_exists.
  cbn [files]. rewrite bool_decide_eq_true_2 by (rewrite Hf; eauto).
  cbn [negb]. rewrite Hd.
  unfold mbind at 1. unfold M_bind at 1.
  rewrite (update_version_header_run _ _ _ _ header) by exact Hf.
  cbn [files stdout writes]. rewrite <- app_assoc. cbn [app].
  unfold mbind at 1. unfold M_bind at 1.
  destruct (update_cmake_version _ _ _ _ _) as [[e|[]] w2]; [reflexivity|].
  rewrite !bind_print. unfold print. cbn [files stdout writes].
  rewrite <- app_assoc. reflexivity.
Qed.

(** * Parsing the version argument *)

Lemma is_numeral_spec (s : text) :
  is_numeral s = true <-> all_digits s /\ s <> [].
Proof.
  destruct s as [|c s]; simpl.
  - split; [discriminate | intros [_ H]; congruence].
  - rewrite andb_true_iff. split.
    + intros [Hc Hs]. split; [|discriminate].
      constructor; [assumption|]. apply Forall_forall. intros x Hx.
      rewrite forallb_forall in Hs. apply Hs. apply list_elem_of_In. assumption.
    + intros [H _]. inversion H as [|? ? Hc Hs]; subst. split; [assumption|].
      apply forallb_forall. intros x Hx. rewrite Forall_forall in Hs.
      apply Hs. apply list_elem_of_In. assumption.
Qed.

Lemma split_nonempty (sep : ascii) (s : text) : split sep s <> [].
Proof.
  induction s as [|c s IH]; simpl; [discriminate|].
  destruct (Ascii.eqb c sep); [discriminate|].
  destruct (split sep s); [congruence | discriminate].
Qed.

Lemma split_sepfree (sep : ascii) (s : text) : sepfree sep s -> split sep s = [s].
Proof.
  induction 1 as [|c s Hc Hs IH]; [reflexivity|]. simpl.
  destruct (Ascii.eqb c sep) eqn:E; [apply Ascii.eqb_eq in E; contradiction|].
  rewrite IH. reflexivity.
Qed.

Lemma split_app_sep (sep : ascii) (a rest : text) :
  sepfree sep a -> split sep (a ++ sep :: rest) = a :: split sep rest.
Proof.
  induction 1 as [|c s Hc Hs IH]; simpl.
  - rewrite Ascii.eqb_refl. reflexivity.
  - destruct (Ascii.eqb c sep) eqn:E; [apply Ascii.eqb_eq in E; contradiction|].
    rewrite IH. reflexivity.
Qed.

Lemma digit_not_space (c : ascii) : is_digit c = true -> is_space c = false.
Proof. destruct c as [[] [] [] [] [] [] [] []]; try reflexivity; discriminate. Qed.

Lemma digit_not_sign (c : ascii) :
  is_digit c = true ->
  Ascii.eqb c "+"%char = false /\ Ascii.eqb c "-"%char = false /\
  Ascii.eqb c "."%char = false.
Proof.
  destruct c as [[] [] [] [] [] [] [] []]; intros H;
    repeat split; try reflexivity; discriminate.
Qed.

Lemma all_digits_sepfree (sep : ascii) (s : text) :
  is_digit sep = false -> all_digits s -> sepfree sep s.
Proof.
  intros Hsep H. eapply Forall_impl; [exact H|]. simpl. intros c Hc ->. congruence.
Qed.

Lemma scan_digits_all (acc : Z) (s : text) :
  all_digits s ->
  scan_digits acc false s =
  Some (fold_left (fun acc c => 10 * acc + digit_val c) s acc, []).
Proof.
  intros H. revert acc. induction H as [|c s Hc Hs IH]; intros acc; [reflexivity|].
  simpl. rewrite Hc. apply IH.
Qed.

(** [int] of a numeral is its value. *)
Lemma py_int_numeral (s : text) :
  all_digits s -> s <> [] -> py_int s = Some (dec_value s).
Proof.
  intros H Hne. destruct s as [|c s]; [congruence|].
  inversion H as [|? ? Hc Hs]; subst.
  unfold py_int. cbn [skip_spaces]. rewrite (digit_not_space c Hc).
  destruct (digit_not_sign c Hc) as (-> & -> & _).
  rewrite Hc, (scan_digits_all 0 (c :: s) H). reflexivity.
Qed.

(** Printing and reading back. *)
Lemma horner_of_uint_acc (d : Decimal.uint) (acc : positive) :
  fold_left (fun acc c => 10 * acc + digit_val c)
    (lit (NilEmpty.string_of_uint d)) (Z.pos acc) =
  Z.pos (Pos.of_uint_acc d acc).
Proof.
  revert acc. induction d; intros acc; [reflexivity|..];
    cbn [NilEmpty.string_of_uint lit list_ascii_of_string fold_left Pos.of_uint_acc];
    rewrite <- IHd; f_equal; unfold digit_val; cbn; lia.
Qed.

Lemma horner_of_uint (d : Decimal.uint) :
  dec_value (lit (NilEmpty.string_of_uint d)) = Z.of_N (Pos.of_uint d).
Proof.
  unfold dec_value. induction d;
    cbn [NilEmpty.string_of_uint lit list_ascii_of_string fold_left Pos.of_uint];
    first [ reflexivity | exact IHd | exact (horner_of_uint_acc d _) ].
Qed.

Lemma dec_value_py_str (z : Z) : 0 <= z -> dec_value (py_str z) = z.
Proof.
  intros Hz. destruct z as [|p|p]; [reflexivity| |lia].
  unfold py_str. cbn [Z.to_int NilZero.string_of_int].
  assert (E : NilZero.string_of_uint (Pos.to_uint p) =
              NilEmpty.string_of_uint (Pos.to_uint p)).
  { pose proof (DecimalPos.Unsigned.of_to p) as Hp.
    destruct (Pos.to_uint p); [discriminate Hp | reflexivity..]. }
  rewrite E, horner_of_uint, DecimalPos.Unsigned.of_to. reflexivity.
Qed.

Lemma py_int_py_str (z : Z) : 0 <= z -> py_int (py_str z) = Some z.
Proof.
  intros Hz. destruct (py_str_nonneg z Hz) as [Hd Hne].
  rewrite py_int_numeral by assumption. rewrite dec_value_py_str by assumption.
  reflexivity.
Qed.

Lemma dot_not_digit : is_digit dot = false.
Proof. reflexivity. Qed.

(** Three numerals joined by dots parse to their values. *)
Lemma parse_version_numerals (a b c : text) :
  is_numeral a = true -> is_numeral b = true -> is_numeral c = true ->
  parse_version (a ++ dot :: b ++ dot :: c) =
  Some (dec_value a, dec_value b, dec_value c).
Proof.
  rewrite !is_numeral_spec. intros [Ha Ha'] [Hb Hb'] [Hc Hc'].
  unfold parse_version. fold dot.
  rewrite split_app_sep by (apply all_digits_sepfree; [reflexivity | assumption]).
  rewrite split_app_sep by (apply all_digits_sepfree; [reflexivity | assumption]).
  rewrite split_sepfree by (apply all_digits_sepfree; [reflexivity | assumption]).
  cbn [map]. rewrite !py_int_numeral by assumption. reflexivity.
Qed.

Lemma parse_version_segments (s : text) :
  length (split dot s) <> 3%nat -> parse_version s = None.
Proof.
  unfold parse_version. fold dot.
  destruct (split dot s) as [|a [|b [|c [|d l]]]]; cbn [map length]; intros H;
    try reflexivity; try lia;
    repeat match goal with |- context [py_int ?x] => destruct (py_int x) end;
    reflexivity.
Qed.

Lemma parse_version_bad_segment (s seg : text) :
  In seg (split dot s) -> py_int seg = None -> parse_version s = None.
Proof.
  unfold parse_version. fold dot.
  destruct (split dot s) as [|a [|b [|c [|d l]]]]; cbn [map In]; intros H Hseg;
    try reflexivity;
    repeat match goal with |- context [py_int ?x] => destruct (py_int x) eqn:? end;
    try reflexivity;
    intuition congruence.
Qed.

Lemma skip_spaces_keeps (c : ascii) (s : text) :
  is_space c = false -> In c s -> In c (skip_spaces s).
Proof.
  intros Hc. induction s as [|x s IH]; simpl; [auto|].
  destruct (is_space x) eqn:Hx; [|auto].
  intros [-> | H]; [congruence | auto].
Qed.

Lemma scan_digits_keeps (c : ascii) (acc : Z) (b : bool) (s : text) (n : Z) (rest : text) :
  is_digit c = false -> Ascii.eqb c "_"%char = false ->
  In c s -> scan_digits acc b s = Some (n, rest) -> In c rest.
Proof.
  intros Hd Hu. revert acc b. induction s as [|x s IH]; intros acc b; simpl; [tauto|].
  intros Hin. destruct (is_digit x) eqn:Hx.
  - destruct Hin as [-> | Hin]; [congruence | eauto].
  - destruct (Ascii.eqb x "_"%char) eqn:Hxu.
    + destruct b; [discriminate|].
      destruct Hin as [-> | Hin]; [congruence | eauto].
    + destruct b; [discriminate|]. intros [= <- <-]. exact Hin.
Qed.

Lemma py_int_rejects (c : ascii) (s : text) :
  literal_char c = false -> In c s -> py_int s = None.
Proof.
  unfold literal_char. rewrite !orb_false_iff.
  intros ((((Hd & Hs) & Hplus) & Hminus) & Hus) Hin.
  apply (skip_spaces_keeps c s Hs) in Hin. unfold py_int.
  destruct (skip_spaces s) as [|x t]; [reflexivity|].
  assert (Hbody : forall (neg : bool) (t' : text), In c t' ->
            match t' with
            | [] => None
            | c0 :: _ =>
                if is_digit c0
                then match scan_digits 0 false t' with
                     | Some (n, rest) =>
                         match skip_spaces rest with
                         | [] => Some (if neg then - n else n)
                         | _ :: _ => None
                         end
                     | None => None
                     end
                else None
            end = None).
  { intros neg t' Hin'. destruct t' as [|y t']; [reflexivity|].
    destruct (is_digit y); [|reflexivity].
    destruct (scan_digits 0 false (y :: t')) as [[n rest]|] eqn:E; [|reflexivity].
    apply (scan_digits_keeps c _ _ _ _ _ Hd Hus Hin') in E.
    apply (skip_spaces_keeps c rest Hs) in E.
    destruct (skip_spaces rest); [contradiction | reflexivity]. }
  destruct (Ascii.eqb x "+"%char) eqn:E1.
  - apply Ascii.eqb_eq in E1 as ->. apply (Hbody false).
    destruct Hin as [<- | Hin]; [rewrite Ascii.eqb_refl in Hplus; discriminate | exact Hin].
  - destruct (Ascii.eqb x "-"%char) eqn:E2.
    + apply Ascii.eqb_eq in E2 as ->. apply (Hbody true).
      destruct Hin as [<- | Hin]; [rewrite Ascii.eqb_refl in Hminus; discriminate | exact Hin].
    + exact (Hbody false (x :: t) Hin).
Qed.

Lemma py_int_empty : py_int [] = None.
Proof. reflexivity. Qed.

(** [s.split(sep)] loses nothing: joining the segments gives [s] back. *)
Lemma join_split (sep : ascii) (s : text) : join sep (split sep s) = s.
Proof.
  induction s as [|c s IH]; [reflexivity|]. simpl.
  pose proof (split_nonempty sep s) as Hne.
  destruct (Ascii.eqb c sep) eqn:E.
  - apply Ascii.eqb_eq in E as ->.
    destruct (split sep s) as [|seg segs]; [congruence|].
    cbn [join app] in *. rewrite IH. reflexivity.
  - destruct (split sep s) as [|seg segs]; [congruence|].
    cbn [join] in *. destruct segs; cbn [app]; rewrite IH; reflexivity.
Qed.

Lemma spec_version_shape_inv (s : text) :
  spec_version_shape s = true ->
  exists a b c, s = a ++ dot :: b ++ dot :: c /\
    is_numeral a = true /\ is_numeral b = true /\ is_numeral c = true.
Proof.
  unfold spec_version_shape. fold dot. intros H.
  pose proof (join_split dot s) as J.
  destruct (split dot s) as [|a [|b [|c [|d l]]]]; try discriminate.
  apply andb_true_iff in H as [H Hc]. apply andb_true_iff in H as [Ha Hb].
  exists a, b, c. cbn [join] in J. auto.
Qed.

Lemma version_string_numerals (major minor patch : Z) :
  0 <= major -> 0 <= minor -> 0 <= patch ->
  version_string major minor patch = py_str major ++ dot :: py_str minor ++ dot :: py_str patch
  /\ is_numeral (py_str major) = true /\ is_numeral (py_str minor) = true
  /\ is_numeral (py_str patch) = true.
Proof.
  intros H1 H2 H3. split.
  - rewrite <- (app_nil_r (version_string major minor patch)), version_string_app.
    rewrite app_nil_r. reflexivity.
  - repeat split; apply is_numeral_spec, py_str_nonneg; assumption.
Qed.

(** * The build-file substitution *)

Lemma p_char_not_digit : is_digit p_char = false.
Proof. reflexivity. Qed.

Lemma cmake_pattern_anchored : anchored p_char cmake_pattern.
Proof.
  exists (tl cmake_pattern). split; [reflexivity|].
  apply sepfree_re_check. reflexivity.
Qed.

Lemma cmake_repl_anchored (major minor patch : Z) :
  anchored_text p_char (cmake_repl major minor patch).
Proof.
  exists (tl (lit "project(PEHint VERSION ") ++ version_string major minor patch).
  split; [reflexivity|]. apply sepfree_app. split.
  - apply sepfree_check. reflexivity.
  - apply sepfree_version_string; [reflexivity | discriminate | discriminate].
Qed.

Lemma re_search_app (p : regex) (pre t : text) :
  re_search p t = true -> re_search p (pre ++ t) = true.
Proof.
  intros H. induction pre as [|c pre IH]; [exact H|].
  simpl. destruct (rmatch p (c :: pre ++ t)); [reflexivity | exact IH].
Qed.

Lemma re_search_match (p : regex) (t r : text) :
  rmatch p t = Some r -> re_search p t = true.
Proof. intros H. destruct t; simpl; rewrite H; reflexivity. Qed.


(** A block of text that starts at a separator, holds no other one and is
    not matched is copied, whatever surrounds it. *)
Lemma re_sub_inert (sep : ascii) (p : regex) (repl pre blk post : text) :
  is_digit sep = false -> anchored sep p -> anchored_text sep blk ->
  rmatch p (blk ++ post) = None ->
  re_sub p repl (pre ++ blk ++ post) =
  re_sub p repl pre ++ blk ++ re_sub p repl post.
Proof.
  intros Hsep Hp (m & -> & Hm) Hno. cbn [app] in *.
  rewrite (re_sub_app_sep sep Hsep p repl Hp). f_equal.
  rewrite (re_sub_skip _ _ _ _ Hno). f_equal.
  apply (re_sub_sepfree_app sep p repl Hp). assumption.
Qed.

Lemma header_order_perm (m : macro) :
  Permutation header_order (m :: other_macros m).
Proof.
  destruct m; cbn.
  - reflexivity.
  - apply perm_swap.
  - apply (Permutation_sym (Permutation_middle [MAJOR; MINOR] [STRING; STRING_FULL] PATCH)).
  - apply (Permutation_sym (Permutation_middle [MAJOR; MINOR; PATCH] [STRING_FULL] STRING)).
  - apply (Permutation_sym (Permutation_middle [MAJOR; MINOR; PATCH; STRING] [] STRING_FULL)).
Qed.

Lemma apply_subs_inert (major minor patch : Z) (m : macro) (l : list macro)
    (pre post : text) :
  ~ In m l ->
  apply_subs major minor patch l (pre ++ header_repl major minor patch m ++ post) =
  apply_subs major minor patch l pre ++ header_repl major minor patch m
    ++ apply_subs major minor patch l post.
Proof.
  revert pre post. induction l as [|x l IH]; intros pre post Hin; [reflexivity|].
  rewrite !apply_subs_cons. unfold header_sub at 1.
  rewrite (re_sub_inert hash).
  - apply IH. intros H. apply Hin. right. exact H.
  - reflexivity.
  - apply header_pattern_anchored.
  - apply header_repl_anchored.
  - apply header_repl_other. intros ->. apply Hin. left. reflexivity.
Qed.

Lemma header_sub_occurrence (major minor patch : Z) (m : macro) (pre occ post : text) :
  rmatch (header_pattern m) (occ ++ post) = Some post ->
  header_sub major minor patch m (pre ++ occ ++ post) =
  header_sub major minor patch m pre ++ header_repl major minor patch m
    ++ header_sub major minor patch m post.
Proof.
  intros H. unfold header_sub.
  apply (re_sub_occurrence hash hash_not_digit); [apply header_pattern_anchored | exact H].
Qed.

Lemma update_header_text_occurrence (major minor patch : Z) (m : macro)
    (pre occ post : text) :
  rmatch (header_pattern m) (occ ++ post) = Some post ->
  update_header_text major minor patch (pre ++ occ ++ post) =
  update_header_text major minor patch pre ++ header_repl major minor patch m
    ++ update_header_text major minor patch post.
Proof.
  intros H. rewrite !update_header_text_eq.
  rewrite !(apply_subs_perm major minor patch _ _ (header_order_perm m)).
  rewrite !apply_subs_cons, (header_sub_occurrence _ _ _ _ _ _ _ H).
  apply apply_subs_inert. unfold other_macros. apply remove_In.
Qed.

(** * Further facts *)

(** The replacements hold no backslash: [re.sub] has no escape or group
    reference to expand in them and emits them as they are. *)
Lemma header_repl_no_backslash (major minor patch : Z) (m : macro) :
  sepfree "\"%char (header_repl major minor patch m).
Proof.
  rewrite header_repl_eq. apply Forall_app. split.
  - apply sepfree_check. destruct m; reflexivity.
  - destruct m; cbn [header_value];
      try (apply sepfree_py_str; [reflexivity | discriminate]);
      (apply Forall_app; split;
         [apply sepfree_version_string; [reflexivity | discriminate | discriminate]
         |apply sepfree_check; reflexivity]).
Qed.

Lemma cmake_repl_no_backslash (major minor patch : Z) :
  sepfree "\"%char (cmake_repl major minor patch).
Proof.
  unfold cmake_repl. apply Forall_app. split.
  - apply sepfree_check. reflexivity.
  - apply sepfree_version_string; [reflexivity | discriminate | discriminate].
Qed.

(** Running the header updater a second time changes no file. *)
Lemma update_version_header_twice (version_file : string) (major minor patch : Z)
    (content : text) (w : world) :
  files w !! version_file = Some content ->
  files (snd (update_version_header version_file major minor patch
                (snd (update_version_header version_file major minor patch w)))) =
  files (snd (update_version_header version_file major minor patch w)).
Proof.
  intros Hf. rewrite (update_version_header_run _ _ _ _ _ _ Hf). cbn [snd].
  rewrite (update_version_header_run _ _ _ _
             (update_header_text major minor patch content))
    by (cbn [files]; apply lookup_insert_eq).
  cbn [snd files]. rewrite !update_header_text_eq, apply_subs_idem.
  apply insert_insert_eq.
Qed.

(** * Properties of the specification *)

(** C1.  The parser lets a signed segment through.  ["1.-2.3"] has not
    the shape that the specification requires (its second segment is no
    non-negative decimal integer), and yet it is parsed, to (1, -2, 3): the
    process goes on, exits with status 0 and writes
    [#define PEHINT_VERSION_MINOR -2], a line that the pattern of the script
    for this macro does not match, so that a later run with ["1.2.3"] leaves
    it as it is. *)
Theorem signed_segment_is_parsed :
  let args := Namespace (lit "1.-2.3") false in
  let w := World (<["/repo/CMakeLists.txt"%string :=
                      lit "project(PEHint LANGUAGES CXX)"]>
                    (<["/repo/src/version.h"%string :=
                         lit "#define PEHINT_VERSION_MINOR 3"]> ∅)) [] [] in
  spec_version_shape (version args) = false
  /\ parse_version (version args) = Some (1, -2, 3)
  /\ fst (run "/repo" args w) = 0
  /\ files (snd (run "/repo" args w)) !! "/repo/src/version.h"%string =
     Some (lit "#define PEHINT_VERSION_MINOR -2")
  /\ re_search (header_pattern MINOR) (lit "#define PEHINT_VERSION_MINOR -2") = false
  /\ files (snd (run "/repo" (Namespace (lit "1.2.3") false) (snd (run "/repo" args w))))
       !! "/repo/src/version.h"%string =
     Some (lit "#define PEHINT_VERSION_MINOR -2").
Proof. vm_compute. repeat split. Qed.

(** C2.  The guard of the build-file updater looks for [VERSION X.Y.Z]
    anywhere in the document, not for the clause that declares the version
    of the project.  On a document whose clause declares 0.3.1 and that
    requires CMake 0.4.2, and on a document whose clause declares 0.4.20, the
    updater asked for 0.4.2 reports the version as already correct and
    writes nothing, although the clause pattern is found and the clause does
    not carry the target. *)
Theorem cmake_guard_unanchored :
  let doc1 := lit "cmake_minimum_required(VERSION 0.4.2)" ++ [newline]
                ++ lit "project(PEHint VERSION 0.3.1 LANGUAGES CXX)" in
  let doc2 := lit "project(PEHint VERSION 0.4.20 LANGUAGES CXX)" in
  let said := [lit "CMakeLists.txt already has correct version 0.4.2"] in
  (contains (cmake_repl 0 4 2) doc1 = false
   /\ re_search cmake_pattern doc1 = true
   /\ update_cmake_version "CMakeLists.txt" 0 4 2
        (World (<["CMakeLists.txt"%string := doc1]> ∅) [] []) =
      (inr tt, World (<["CMakeLists.txt"%string := doc1]> ∅) said []))
  /\ (re_search cmake_pattern doc2 = true
      /\ re_sub cmake_pattern (cmake_repl 0 4 2) doc2 =
         lit "project(PEHint VERSION 0.4.2 LANGUAGES CXX)"
      /\ update_cmake_version "CMakeLists.txt" 0 4 2
           (World (<["CMakeLists.txt"%string := doc2]> ∅) [] []) =
         (inr tt, World (<["CMakeLists.txt"%string := doc2]> ∅) said [])).
Proof. vm_compute. repeat split. Qed.

(** C3, as stated, fails: with a valid version and [--dry-run] the process
    exits with status 1 when the header file is missing. *)
Lemma dry_run_missing_header :
  ~ (forall (project_root : string) (v : text) (w : world),
       spec_version_shape v = true ->
       fst (run project_root (Namespace v true) w) = 0).
Proof.
  intros H. specialize (H "/repo"%string (lit "1.2.3") (World ∅ [] []) eq_refl).
  vm_compute in H. discriminate H.
Qed.

(** C3, amended.  With a version that parses and [--dry-run] set, the
    process modifies no file and writes none.  If the header file exists it
    exits with status 0, having printed what it would do; if the header file
    is missing it exits with status 1. *)
Theorem dry_run_amended (project_root : string) (args : namespace)
    (major minor patch : Z) (w : world) :
  parse_version (version args) = Some (major, minor, patch) ->
  dry_run args = true ->
  files (snd (run project_root args w)) = files w
  /\ writes (snd (run project_root args w)) = writes w
  /\ (is_Some (files w !! version_file_of project_root) ->
      fst (run project_root args w) = 0
      /\ stdout (snd (run project_root args w)) =
         stdout w ++
           [lit "Updating PEHint to version " ++ version_string major minor patch;
            lit "DRY RUN - No changes will be made";
            lit "Would update " ++ lit (version_file_of project_root)
              ++ lit " to version " ++ version_string major minor patch;
            lit "Would check " ++ lit (cmake_file_of project_root)
              ++ lit " for hardcoded versions"])
  /\ (files w !! version_file_of project_root = None ->
      fst (run project_root args w) = 1).
Proof.
  intros Hp Hd. unfold run.
  destruct (files w !! version_file_of project_root) as [h|] eqn:Hf.
  - rewrite (main_dry_run _ _ _ _ _ _ Hp) by (rewrite ?Hf; eauto).
    cbn [fst snd files stdout writes exit_status].
    split; [reflexivity|]. split; [reflexivity|].
    split; [intros _; split; reflexivity | discriminate].
  - rewrite (main_missing_header _ _ _ _ _ _ Hp Hf).
    cbn [fst snd files stdout writes exit_status].
    split; [reflexivity|]. split; [reflexivity|].
    split; [intros [? ?]; discriminate | reflexivity].
Qed.

Lemma dry_run_amended_witness :
  let args := Namespace (lit "0.4.2") true in
  let w := World (<["/repo/src/version.h"%string := lit "#define PEHINT_VERSION_MAJOR 0"]> ∅)
                 [] [] in
  parse_version (version args) = Some (0, 4, 2) /\ dry_run args = true
  /\ files (snd (run "/repo" args w)) = files w
  /\ writes (snd (run "/repo" args w)) = writes w
  /\ (is_Some (files w !! version_file_of "/repo") -> fst (run "/repo" args w) = 0).
Proof.
  intros args w.
  assert (Hp : parse_version (version args) = Some (0, 4, 2)) by reflexivity.
  assert (Hd : dry_run args = true) by reflexivity.
  destruct (dry_run_amended "/repo" args 0 4 2 w Hp Hd) as (Hf & Hw & H0 & _).
  split; [exact Hp|]. split; [exact Hd|]. split; [exact Hf|]. split; [exact Hw|].
  intros Hs. exact (proj1 (H0 Hs)).
Defined.

(** C4.  Applying the header transformation twice with the same triple gives
    the same document as applying it once (for every triple of integers, in
    particular for the non-negative ones). *)
Theorem update_header_text_idempotent (major minor patch : Z) (content : text) :
  update_header_text major minor patch (update_header_text major minor patch content) =
  update_header_text major minor patch content.
Proof. rewrite !update_header_text_eq. apply apply_subs_idem. Qed.



(** C6.  A header document in which none of the five patterns occurs comes
    back from the header transformation as it went in, character for
    character; the transformation is total, there is no error to raise. *)
Theorem header_noop_on_miss (major minor patch : Z) (content : text) :
  (forall m : macro, re_search (header_pattern m) content = false) ->
  update_header_text major minor patch content = content.
Proof.
  intros H. unfold update_header_text, header_sub.
  rewrite (re_sub_no_match _ _ content (H MAJOR)).
  rewrite (re_sub_no_match _ _ content (H MINOR)).
  rewrite (re_sub_no_match _ _ content (H PATCH)).
  rewrite (re_sub_no_match _ _ content (H STRING)).
  apply (re_sub_no_match _ _ content (H STRING_FULL)).
Qed.

Lemma header_noop_on_miss_witness :
  let content := lit "#pragma once" ++ [newline] ++ lit "#define PEHINT_NAME 1"
                   ++ [newline] ++ lit "#define PEHINT_VERSION_MAJOR x" in
  (forall m : macro, re_search (header_pattern m) content = false)
  /\ update_header_text 0 4 2 content = content.
Proof.
  intros content.
  assert (H : forall m : macro, re_search (header_pattern m) content = false)
    by (intros []; reflexivity).
  split; [exact H | exact (header_noop_on_miss 0 4 2 content H)].
Defined.

(** C7.  When the build file neither holds the target version text nor the
    clause pattern, the build-file updater raises nothing, prints one
    informational line and writes nothing; the process goes on, leaves the
    build file as it was and exits with status 0. *)
Theorem cmake_pattern_absent (project_root : string) (args : namespace)
    (major minor patch : Z) (header content : text) (w : world) :
  parse_version (version args) = Some (major, minor, patch) ->
  dry_run args = false ->
  files w !! version_file_of project_root = Some header ->
  files w !! cmake_file_of project_root = Some content ->
  contains (cmake_needle major minor patch) content = false ->
  re_search cmake_pattern content = false ->
  update_cmake_version (cmake_file_of project_root) major minor patch w =
    (inr tt,
     World (files w)
           (stdout w ++ [lit "No hardcoded version found in "
                           ++ lit (cmake_file_of project_root)])
           (writes w))
  /\ run project_root args w =
     (0,
      World (<[version_file_of project_root :=
                 update_header_text major minor patch header]> (files w))
            (stdout w ++
               [lit "Updating PEHint to version " ++ version_string major minor patch;
                lit "Updated " ++ lit (version_file_of project_root)
                  ++ lit " to version " ++ version_string major minor patch;
                lit "No hardcoded version found in " ++ lit (cmake_file_of project_root);
                [newline] ++ lit "Version updated successfully to "
                  ++ version_string major minor patch;
                lit "Remember to rebuild the project for changes to take effect"])
            (writes w ++ [version_file_of project_root]))
  /\ files (snd (run project_root args w)) !! cmake_file_of project_root = Some content.
Proof.
  intros Hp Hd Hh Hc Hg Hs.
  assert (Hrun : run project_root args w =
     (0,
      World (<[version_file_of project_root :=
                 update_header_text major minor patch header]> (files w))
            (stdout w ++
               [lit "Updating PEHint to version " ++ version_string major minor patch;
                lit "Updated " ++ lit (version_file_of project_root)
                  ++ lit " to version " ++ version_string major minor patch;
                lit "No hardcoded version found in " ++ lit (cmake_file_of project_root);
                [newline] ++ lit "Version updated successfully to "
                  ++ version_string major minor patch;
                lit "Remember to rebuild the project for changes to take effect"])
            (writes w ++ [version_file_of project_root]))).
  { unfold run. rewrite (main_apply _ _ _ _ _ _ _ Hp Hh Hd). cbv zeta.
    rewrite (update_cmake_version_absent _ _ _ _ content); cbn [files stdout writes].
    - rewrite <- !app_assoc. reflexivity.
    - rewrite lookup_insert_ne by apply version_file_not_cmake_file. exact Hc.
    - exact Hg.
    - exact Hs. }
  split; [apply (update_cmake_version_absent _ _ _ _ content); assumption|].
  split; [exact Hrun|]. rewrite Hrun. cbn [snd files].
  rewrite lookup_insert_ne by apply version_file_not_cmake_file. exact Hc.
Qed.

Lemma cmake_pattern_absent_witness :
  let args := Namespace (lit "0.4.2") false in
  let w := World (<["/repo/CMakeLists.txt"%string := lit "project(PEHint LANGUAGES CXX)"]>
                    (<["/repo/src/version.h"%string := lit "#define PEHINT_VERSION_MAJOR 0"]> ∅))
                 [] [] in
  fst (run "/repo" args w) = 0
  /\ files (snd (run "/repo" args w)) !! "/repo/CMakeLists.txt"%string =
     Some (lit "project(PEHint LANGUAGES CXX)").
Proof.
  intros args w.
  destruct (cmake_pattern_absent "/repo" args 0 4 2
              (lit "#define PEHINT_VERSION_MAJOR 0") (lit "project(PEHint LANGUAGES CXX)") w)
    as (_ & Hrun & Hfile); try reflexivity.
  split; [rewrite Hrun; reflexivity | exact Hfile].
Defined.

(** C8.  With a version that parses and no header file at
    [project_root/src/version.h], the process prints the error message,
    exits with status 1 and writes no file. *)
Theorem missing_header_exits_1 (project_root : string) (args : namespace)
    (major minor patch : Z) (w : world) :
  parse_version (version args) = Some (major, minor, patch) ->
  files w !! version_file_of project_root = None ->
  run project_root args w =
  (1,
   World (files w)
         (stdout w ++
            [lit "Updating PEHint to version " ++ version_string major minor patch;
             lit "Error: " ++ lit (version_file_of project_root) ++ lit " not found"])
         (writes w)).
Proof.
  intros Hp Hf. unfold run. rewrite (main_missing_header _ _ _ _ _ _ Hp Hf). reflexivity.
Qed.

Lemma missing_header_exits_1_witness :
  let args := Namespace (lit "0.4.2") false in
  let w := World (<["/repo/CMakeLists.txt"%string :=
                      lit "project(PEHint VERSION 0.3.1 LANGUAGES CXX)"]> ∅) [] [] in
  parse_version (version args) = Some (0, 4, 2)
  /\ files w !! version_file_of "/repo" = None
  /\ fst (run "/repo" args w) = 1
  /\ files (snd (run "/repo" args w)) = files w
  /\ writes (snd (run "/repo" args w)) = [].
Proof.
  intros args w.
  assert (Hp : parse_version (version args) = Some (0, 4, 2)) by reflexivity.
  assert (Hf : files w !! version_file_of "/repo" = None) by reflexivity.
  rewrite (missing_header_exits_1 "/repo" args 0 4 2 w Hp Hf).
  repeat split; assumption.
Defined.

(** C9.  The five substitutions may be applied in any order: every
    permutation of the order of the source gives the document that
    [update_version_header] computes. *)
Theorem header_subs_order_insensitive (major minor patch : Z)
    (order : list macro) (content : text) :
  Permutation header_order order ->
  apply_subs major minor patch order content =
  update_header_text major minor patch content.
Proof.
  intros H. rewrite update_header_text_eq. symmetry.
  apply apply_subs_perm. exact H.
Qed.

Lemma header_subs_order_insensitive_witness :
  let content := lit "#define PEHINT_VERSION_PATCH 1" ++ [newline]
                   ++ lit "#define PEHINT_VERSION_MAJOR 0" in
  Permutation header_order [STRING_FULL; STRING; PATCH; MINOR; MAJOR]
  /\ apply_subs 0 4 2 [STRING_FULL; STRING; PATCH; MINOR; MAJOR] content =
     update_header_text 0 4 2 content.
Proof.
  intros content.
  assert (H : Permutation header_order [STRING_FULL; STRING; PATCH; MINOR; MAJOR])
    by exact (Permutation_rev header_order).
  split; [exact H | exact (header_subs_order_insensitive 0 4 2 _ content H)].
Defined.

(** C10.  Every occurrence of a pattern is rewritten, not only the first:
    wherever one of the five header patterns matches in a document, the
    substitution of that macro, and the whole header transformation, put the
    replacement there and go on rewriting what precedes and what follows;
    the same holds for the clause of the build file, also in the document
    that the updater writes back. *)
Theorem every_occurrence_replaced :
  (forall (major minor patch : Z) (m : macro) (pre occ post : text),
     rmatch (header_pattern m) (occ ++ post) = Some post ->
     header_sub major minor patch m (pre ++ occ ++ post) =
       header_sub major minor patch m pre ++ header_repl major minor patch m
         ++ header_sub major minor patch m post
     /\ update_header_text major minor patch (pre ++ occ ++ post) =
          update_header_text major minor patch pre ++ header_repl major minor patch m
            ++ update_header_text major minor patch post)
  /\ (forall (major minor patch : Z) (pre occ post : text),
        rmatch cmake_pattern (occ ++ post) = Some post ->
        re_sub cmake_pattern (cmake_repl major minor patch) (pre ++ occ ++ post) =
          re_sub cmake_pattern (cmake_repl major minor patch) pre
            ++ cmake_repl major minor patch
            ++ re_sub cmake_pattern (cmake_repl major minor patch) post)
  /\ (forall (cmake_file : string) (major minor patch : Z) (pre occ post : text) (w : world),
        rmatch cmake_pattern (occ ++ post) = Some post ->
        files w !! cmake_file = Some (pre ++ occ ++ post) ->
        contains (cmake_needle major minor patch) (pre ++ occ ++ post) = false ->
        files (snd (update_cmake_version cmake_file major minor patch w)) !! cmake_file =
        Some (re_sub cmake_pattern (cmake_repl major minor patch) pre
                ++ cmake_repl major minor patch
                ++ re_sub cmake_pattern (cmake_repl major minor patch) post)).
Proof.
  split; [|split].
  - intros major minor patch m pre occ post H. split.
    + apply header_sub_occurrence. exact H.
    + apply update_header_text_occurrence. exact H.
  - intros major minor patch pre occ post H.
    apply (re_sub_occurrence p_char p_char_not_digit); [apply cmake_pattern_anchored | exact H].
  - intros cmake_file major minor patch pre occ post w H Hf Hg.
    rewrite (update_cmake_version_updated _ _ _ _ _ _ Hf Hg).
    + cbn [snd files]. rewrite lookup_insert_eq. f_equal.
      apply (re_sub_occurrence p_char p_char_not_digit); [apply cmake_pattern_anchored | exact H].
    + apply re_search_app. eapply re_search_match. exact H.
Qed.

Lemma every_occurrence_replaced_witness :
  let pre := lit "#define PEHINT_VERSION_MAJOR 1" ++ [newline] in
  let occ := lit "#define PEHINT_VERSION_MAJOR 2" in
  let post := [newline] ++ lit "#define PEHINT_VERSION_MAJOR 3" in
  rmatch (header_pattern MAJOR) (occ ++ post) = Some post
  /\ update_header_text 7 8 9 (pre ++ occ ++ post) =
     lit "#define PEHINT_VERSION_MAJOR 7" ++ [newline]
       ++ lit "#define PEHINT_VERSION_MAJOR 7" ++ [newline]
       ++ lit "#define PEHINT_VERSION_MAJOR 7".
Proof.
  intros pre occ post.
  assert (H : rmatch (header_pattern MAJOR) (occ ++ post) = Some post) by reflexivity.
  split; [exact H|].
  rewrite (proj2 (proj1 every_occurrence_replaced 7 8 9 MAJOR pre occ post H)).
  reflexivity.
Defined.

(** * Further properties of the script *)

(** ** Substrings and searches *)

Lemma contains_spec (t s : text) :
  contains t s = true <-> exists pre post, s = pre ++ t ++ post.
Proof.
  split.
  - induction s as [|c s IH].
    + simpl. rewrite orb_false_r. intros H.
      apply is_prefix_spec in H as [r Hr]. exists [], r. exact Hr.
    + cbn [contains]. intros H. apply orb_true_iff in H as [H|H].
      * apply is_prefix_spec in H as [r Hr]. exists [], r. exact Hr.
      * destruct (IH H) as (pre & post & ->). exists (c :: pre), post. reflexivity.
  - intros (pre & post & ->). induction pre as [|c pre IH].
    + cbn [app]. destruct (t ++ post) eqn:E; cbn [contains]; rewrite <- ?E;
        (apply orb_true_iff; left; apply is_prefix_spec; eauto).
    + cbn [app contains]. rewrite IH. apply orb_true_r.
Qed.

Lemma re_search_inv (p : regex) (s : text) :
  re_search p s = true -> exists pre u r, s = pre ++ u /\ rmatch p u = Some r.
Proof.
  induction s as [|c s IH]; cbn [re_search].
  - destruct (rmatch p []) as [r|] eqn:E; [|discriminate].
    intros _. exists [], [], r. auto.
  - destruct (rmatch p (c :: s)) as [r|] eqn:E.
    + intros _. exists [], (c :: s), r. auto.
    + intros H. destruct (IH H) as (pre & u & r & -> & Hu).
      exists (c :: pre), u, r. auto.
Qed.

(** The text of the guard is part of the replacement of the clause. *)
Lemma cmake_repl_needle (major minor patch : Z) :
  cmake_repl major minor patch =
  lit "project(PEHint " ++ cmake_needle major minor patch.
Proof. reflexivity. Qed.

Lemma contains_needle_of_repl (major minor patch : Z) (content : text) :
  contains (cmake_repl major minor patch) content = true ->
  contains (cmake_needle major minor patch) content = true.
Proof.
  rewrite !contains_spec. intros (pre & post & ->).
  exists (pre ++ lit "project(PEHint "), post.
  rewrite cmake_repl_needle, <- !app_assoc. reflexivity.
Qed.

(** What the build-file substitution writes holds the text of the guard. *)
Lemma contains_needle_after_sub (major minor patch : Z) (content : text) :
  re_search cmake_pattern content = true ->
  contains (cmake_needle major minor patch)
    (re_sub cmake_pattern (cmake_repl major minor patch) content) = true.
Proof.
  intros H. apply re_search_inv in H as (pre & u & r & -> & Hu).
  destruct (rmatch_split _ _ _ Hu) as (occ & -> & _).
  rewrite (re_sub_occurrence p_char p_char_not_digit _ _ cmake_pattern_anchored _ _ _ Hu).
  apply contains_needle_of_repl, contains_spec. eauto.
Qed.

(** ** The build-file updater *)

(** X1.  A build file that already holds the clause with the target version
    is reported as correct and is not written. *)
Theorem cmake_guard_sound (cmake_file : string) (major minor patch : Z)
    (content : text) (w : world) :
  files w !! cmake_file = Some content ->
  contains (cmake_repl major minor patch) content = true ->
  update_cmake_version cmake_file major minor patch w =
  (inr tt,
   World (files w)
         (stdout w ++ [lit "CMakeLists.txt already has correct version "
                         ++ version_string major minor patch])
         (writes w)).
Proof.
  intros Hf Hc. apply (update_cmake_version_current _ _ _ _ content); [exact Hf|].
  apply contains_needle_of_repl. exact Hc.
Qed.

Lemma cmake_guard_sound_witness :
  let content := lit "project(PEHint VERSION 0.4.2 LANGUAGES CXX)" in
  let w := World (<["CMakeLists.txt"%string := content]> ∅) [] [] in
  contains (cmake_repl 0 4 2) content = true
  /\ update_cmake_version "CMakeLists.txt" 0 4 2 w =
     (inr tt,
      World (files w) [lit "CMakeLists.txt already has correct version 0.4.2"] []).
Proof.
  intros content w.
  assert (Hc : contains (cmake_repl 0 4 2) content = true) by reflexivity.
  split; [exact Hc|].
  exact (cmake_guard_sound "CMakeLists.txt" 0 4 2 content w eq_refl Hc).
Defined.

(** X2.  Calling the build-file updater a second time with the same version
    never writes: whatever the first call did to a build file that exists,
    the second call returns normally, prints one line and leaves the files
    and the write log as the first call left them. *)
Theorem update_cmake_version_rerun (cmake_file : string) (major minor patch : Z)
    (w : world) :
  is_Some (files w !! cmake_file) ->
  exists line,
    update_cmake_version cmake_file major minor patch
      (snd (update_cmake_version cmake_file major minor patch w)) =
    (inr tt,
     World (files (snd (update_cmake_version cmake_file major minor patch w)))
           (stdout (snd (update_cmake_version cmake_file major minor patch w)) ++ [line])
           (writes (snd (update_cmake_version cmake_file major minor patch w)))).
Proof.
  intros [content Hf].
  destruct (contains (cmake_needle major minor patch) content) eqn:Hg.
  - rewrite (update_cmake_version_current _ _ _ _ _ _ Hf Hg). cbn [snd].
    eexists. apply (update_cmake_version_current _ _ _ _ content); assumption.
  - destruct (re_search cmake_pattern content) eqn:Hs.
    + rewrite (update_cmake_version_updated _ _ _ _ _ _ Hf Hg Hs). cbn [snd].
      eexists. eapply update_cmake_version_current.
      * cbn [files]. apply lookup_insert_eq.
      * apply contains_needle_after_sub. exact Hs.
    + rewrite (update_cmake_version_absent _ _ _ _ _ _ Hf Hg Hs). cbn [snd].
      eexists. apply (update_cmake_version_absent _ _ _ _ content); assumption.
Qed.

Lemma update_cmake_version_rerun_witness :
  let w := World (<["CMakeLists.txt"%string :=
                      lit "project(PEHint VERSION 0.3.1 LANGUAGES CXX)"]> ∅) [] [] in
  is_Some (files w !! "CMakeLists.txt"%string)
  /\ exists line,
       update_cmake_version "CMakeLists.txt" 0 4 0
         (snd (update_cmake_version "CMakeLists.txt" 0 4 0 w)) =
       (inr tt,
        World (files (snd (update_cmake_version "CMakeLists.txt" 0 4 0 w)))
              (stdout (snd (update_cmake_version "CMakeLists.txt" 0 4 0 w)) ++ [line])
              (writes (snd (update_cmake_version "CMakeLists.txt" 0 4 0 w)))).
Proof.
  intros w.
  assert (H : is_Some (files w !! "CMakeLists.txt"%string)) by (eexists; reflexivity).
  split; [exact H | exact (update_cmake_version_rerun "CMakeLists.txt" 0 4 0 w H)].
Defined.

(** ** The driver *)

Lemma lookup_cmake_after_header (project_root : string) (h : text) (fs : gmap string text) :
  <[version_file_of project_root := h]> fs !! cmake_file_of project_root =
  fs !! cmake_file_of project_root.
Proof. apply lookup_insert_ne, version_file_not_cmake_file. Qed.

Lemma lookup_header_after_cmake (project_root : string) (c : text) (fs : gmap string text) :
  <[cmake_file_of project_root := c]> fs !! version_file_of project_root =
  fs !! version_file_of project_root.
Proof.
  apply lookup_insert_ne. intros H. symmetry in H.
  exact (version_file_not_cmake_file project_root H).
Qed.

(** A run is summed up by [run_effect]; it only adds to the output and to
    the write log. *)
Lemma run_effect_spec (project_root : string) (args : namespace) (w : world) :
  exists out,
    run project_root args w =
    (fst (fst (run_effect project_root args (files w))),
     World (snd (fst (run_effect project_root args (files w))))
           (stdout w ++ out)
           (writes w ++ snd (run_effect project_root args (files w)))).
Proof.
  unfold run, run_effect.
  destruct (parse_version (version args)) as [[[major minor] patch]|] eqn:Hp.
  2:{ rewrite (main_parse_error _ _ _ Hp). eexists.
      cbn [fst snd exit_status]. rewrite (app_nil_r (writes w)). reflexivity. }
  destruct (files w !! version_file_of project_root) as [header|] eqn:Hh.
  2:{ rewrite (main_missing_header _ _ _ _ _ _ Hp Hh). eexists.
      cbn [fst snd exit_status]. rewrite (app_nil_r (writes w)). reflexivity. }
  destruct (dry_run args) eqn:Hd.
  { rewrite (main_dry_run _ _ _ _ _ _ Hp) by (rewrite ?Hh; eauto). eexists.
    cbn [fst snd exit_status]. rewrite (app_nil_r (writes w)). reflexivity. }
  rewrite (main_apply _ _ _ _ _ _ _ Hp Hh Hd). cbv zeta.
  destruct (files w !! cmake_file_of project_root) as [content|] eqn:Hc.
  2:{ unfold update_cmake_version, mbind, M_bind, read_text. cbn [files].
      rewrite lookup_cmake_after_header, Hc. eexists.
      cbn [fst snd exit_status]. reflexivity. }
  destruct (contains (cmake_needle major minor patch) content) eqn:Hg.
  { rewrite (update_cmake_version_current _ _ _ _ content)
      by (cbn [files]; rewrite ?lookup_cmake_after_header; assumption).
    eexists. cbn [fst snd exit_status files stdout writes].
    rewrite <- !(app_assoc (stdout w)). reflexivity. }
  destruct (re_search cmake_pattern content) eqn:Hs.
  - rewrite (update_cmake_version_updated _ _ _ _ content)
      by (cbn [files]; rewrite ?lookup_cmake_after_header; assumption).
    eexists. cbn [fst snd exit_status files stdout writes].
    rewrite <- !(app_assoc (stdout w)), <- (app_assoc (writes w)). reflexivity.
  - rewrite (update_cmake_version_absent _ _ _ _ content)
      by (cbn [files]; rewrite ?lookup_cmake_after_header; assumption).
    eexists. cbn [fst snd exit_status files stdout writes].
    rewrite <- !(app_assoc (stdout w)). reflexivity.
Qed.

(** X3.  When the build file is missing, a run that is no dry run has
    already rewritten the header when it fails: it exits with status 1 after
    the header was written, and the closing summary is not printed. *)
Theorem missing_build_file_after_header (project_root : string) (args : namespace)
    (major minor patch : Z) (header : text) (w : world) :
  parse_version (version args) = Some (major, minor, patch) ->
  dry_run args = false ->
  files w !! version_file_of project_root = Some header ->
  files w !! cmake_file_of project_root = None ->
  run project_root args w =
  (1,
   World (<[version_file_of project_root :=
              update_header_text major minor patch header]> (files w))
         (stdout w ++
            [lit "Updating PEHint to version " ++ version_string major minor patch;
             lit "Updated " ++ lit (version_file_of project_root)
               ++ lit " to version " ++ version_string major minor patch])
         (writes w ++ [version_file_of project_root])).
Proof.
  intros Hp Hd Hh Hc. unfold run.
  rewrite (main_apply _ _ _ _ _ _ _ Hp Hh Hd). cbv zeta.
  unfold update_cmake_version, mbind, M_bind, read_text. cbn [files].
  rewrite lookup_cmake_after_header, Hc. reflexivity.
Qed.

Lemma missing_build_file_after_header_witness :
  let args := Namespace (lit "0.4.2") false in
  let w := World (<["/repo/src/version.h"%string := lit "#define PEHINT_VERSION_MINOR 3"]> ∅)
                 [] [] in
  fst (run "/repo" args w) = 1
  /\ files (snd (run "/repo" args w)) !! "/repo/src/version.h"%string =
     Some (lit "#define PEHINT_VERSION_MINOR 4")
  /\ writes (snd (run "/repo" args w)) = ["/repo/src/version.h"%string].
Proof.
  intros args w.
  rewrite (missing_build_file_after_header "/repo" args 0 4 2
             (lit "#define PEHINT_VERSION_MINOR 3") w);
    try reflexivity.
  repeat split.
Defined.

(** X4.  When both files exist, the guard does not fire and the clause is
    found, a run rewrites the header, then the build file, in this order,
    prints the closing summary and exits with status 0. *)
Theorem run_updates_both_files (project_root : string) (args : namespace)
    (major minor patch : Z) (header content : text) (w : world) :
  parse_version (version args) = Some (major, minor, patch) ->
  dry_run args = false ->
  files w !! version_file_of project_root = Some header ->
  files w !! cmake_file_of project_root = Some content ->
  contains (cmake_needle major minor patch) content = false ->
  re_search cmake_pattern content = true ->
  run project_root args w =
  (0,
   World (<[cmake_file_of project_root :=
              re_sub cmake_pattern (cmake_repl major minor patch) content]>
            (<[version_file_of project_root :=
                 update_header_text major minor patch header]> (files w)))
         (stdout w ++
            [lit "Updating PEHint to version " ++ version_string major minor patch;
             lit "Updated " ++ lit (version_file_of project_root)
               ++ lit " to version " ++ version_string major minor patch;
             lit "Updated " ++ lit (cmake_file_of project_root)
               ++ lit " to version " ++ version_string major minor patch;
             [newline] ++ lit "Version updated successfully to "
               ++ version_string major minor patch;
             lit "Remember to rebuild the project for changes to take effect"])
         (writes w ++ [version_file_of project_root; cmake_file_of project_root])).
Proof.
  intros Hp Hd Hh Hc Hg Hs. unfold run.
  rewrite (main_apply _ _ _ _ _ _ _ Hp Hh Hd). cbv zeta.
  rewrite (update_cmake_version_updated _ _ _ _ content)
    by (cbn [files]; rewrite ?lookup_cmake_after_header; assumption).
  cbn [files stdout writes exit_status]. rewrite <- !app_assoc. reflexivity.
Qed.

Lemma run_updates_both_files_witness :
  let args := Namespace (lit "0.4.0") false in
  let w := World (<["/repo/CMakeLists.txt"%string :=
                      lit "project(PEHint VERSION 0.3.1 LANGUAGES CXX)"]>
                    (<["/repo/src/version.h"%string :=
                         lit "#define PEHINT_VERSION_MINOR 3"]> ∅)) [] [] in
  fst (run "/repo" args w) = 0
  /\ files (snd (run "/repo" args w)) !! "/repo/src/version.h"%string =
     Some (lit "#define PEHINT_VERSION_MINOR 4")
  /\ files (snd (run "/repo" args w)) !! "/repo/CMakeLists.txt"%string =
     Some (lit "project(PEHint VERSION 0.4.0 LANGUAGES CXX)")
  /\ writes (snd (run "/repo" args w)) =
     ["/repo/src/version.h"%string; "/repo/CMakeLists.txt"%string].
Proof.
  intros args w.
  rewrite (run_updates_both_files "/repo" args 0 4 0
             (lit "#define PEHINT_VERSION_MINOR 3")
             (lit "project(PEHint VERSION 0.3.1 LANGUAGES CXX)") w);
    try reflexivity.
  repeat split.
Defined.

Lemma run_effect_apply (project_root : string) (args : namespace)
    (major minor patch : Z) (header : text) (fs : gmap string text) :
  parse_version (version args) = Some (major, minor, patch) ->
  fs !! version_file_of project_root = Some header ->
  dry_run args = false ->
  run_effect project_root args fs =
  let fs1 :=
    <[version_file_of project_root := update_header_text major minor patch header]> fs in
  match fs !! cmake_file_of project_root with
  | None => (1, fs1, [version_file_of project_root])
  | Some content =>
      if contains (cmake_needle major minor patch) content
      then (0, fs1, [version_file_of project_root])
      else if re_search cmake_pattern content
      then (0,
            <[cmake_file_of project_root :=
                re_sub cmake_pattern (cmake_repl major minor patch) content]> fs1,
            [version_file_of project_root; cmake_file_of project_root])
      else (0, fs1, [version_file_of project_root])
  end.
Proof. intros Hp Hh Hd. unfold run_effect. rewrite Hp, Hh, Hd. reflexivity. Qed.

(** Writing the header a second time changes nothing. *)
Lemma header_rewrite_id (project_root : string) (major minor patch : Z)
    (header : text) (fs : gmap string text) :
  fs !! version_file_of project_root = Some (update_header_text major minor patch header) ->
  <[version_file_of project_root :=
      update_header_text major minor patch (update_header_text major minor patch header)]> fs
  = fs.
Proof.
  intros H. rewrite !update_header_text_eq, apply_subs_idem, <- update_header_text_eq.
  apply insert_id. exact H.
Qed.

Lemma run_effect_idem (project_root : string) (args : namespace) (fs : gmap string text) :
  snd (fst (run_effect project_root args
              (snd (fst (run_effect project_root args fs))))) =
  snd (fst (run_effect project_root args fs)).
Proof.
  destruct (parse_version (version args)) as [[[major minor] patch]|] eqn:Hp.
  2:{ unfold run_effect. rewrite Hp. reflexivity. }
  destruct (fs !! version_file_of project_root) as [header|] eqn:Hh.
  2:{ unfold run_effect. rewrite Hp, Hh. cbn [fst snd]. rewrite Hh. reflexivity. }
  destruct (dry_run args) eqn:Hd.
  { unfold run_effect. rewrite Hp, Hh, Hd. cbn [fst snd]. rewrite Hh. reflexivity. }
  rewrite (run_effect_apply _ _ _ _ _ _ _ Hp Hh Hd). cbv zeta.
  set (fs1 := <[version_file_of project_root :=
                  update_header_text major minor patch header]> fs).
  assert (H1 : fs1 !! version_file_of project_root =
               Some (update_header_text major minor patch header))
    by apply lookup_insert_eq.
  assert (Hc1 : fs1 !! cmake_file_of project_root = fs !! cmake_file_of project_root)
    by apply lookup_cmake_after_header.
  destruct (fs !! cmake_file_of project_root) as [content|] eqn:Hc.
  2:{ cbn [fst snd]. rewrite (run_effect_apply _ _ _ _ _ _ _ Hp H1 Hd). cbv zeta.
      rewrite Hc1. cbn [fst snd]. apply header_rewrite_id. exact H1. }
  destruct (contains (cmake_needle major minor patch) content) eqn:Hg.
  { cbn [fst snd]. rewrite (run_effect_apply _ _ _ _ _ _ _ Hp H1 Hd). cbv zeta.
    rewrite Hc1, Hg. cbn [fst snd]. apply header_rewrite_id. exact H1. }
  destruct (re_search cmake_pattern content) eqn:Hs.
  - cbn [fst snd].
    set (fs2 := <[cmake_file_of project_root :=
                    re_sub cmake_pattern (cmake_repl major minor patch) content]> fs1).
    assert (H2 : fs2 !! version_file_of project_root =
                 Some (update_header_text major minor patch header)).
    { unfold fs2. rewrite lookup_header_after_cmake. exact H1. }
    rewrite (run_effect_apply _ _ _ _ _ _ _ Hp H2 Hd). cbv zeta.
    assert (Hc2 : fs2 !! cmake_file_of project_root =
                  Some (re_sub cmake_pattern (cmake_repl major minor patch) content))
      by apply lookup_insert_eq.
    rewrite Hc2, (contains_needle_after_sub _ _ _ _ Hs). cbn [fst snd].
    apply header_rewrite_id. exact H2.
  - cbn [fst snd]. rewrite (run_effect_apply _ _ _ _ _ _ _ Hp H1 Hd). cbv zeta.
    rewrite Hc1, Hg, Hs. cbn [fst snd]. apply header_rewrite_id. exact H1.
Qed.

Lemma run_files (project_root : string) (args : namespace) (w : world) :
  files (snd (run project_root args w)) =
  snd (fst (run_effect project_root args (files w))).
Proof. destruct (run_effect_spec project_root args w) as [out ->]. reflexivity. Qed.

(** X5.  Running the process again with the same arguments changes no file:
    whatever the first run did (update, dry run, or failure at any point),
    the files after a second run are the files after the first. *)
Theorem run_twice_same_files (project_root : string) (args : namespace) (w : world) :
  files (snd (run project_root args (snd (run project_root args w)))) =
  files (snd (run project_root args w)).
Proof. rewrite !run_files. apply run_effect_idem. Qed.

Lemma run_effect_frame (project_root : string) (args : namespace) (fs : gmap string text) :
  let st := fst (fst (run_effect project_root args fs)) in
  let fs' := snd (fst (run_effect project_root args fs)) in
  let l := snd (run_effect project_root args fs) in
  (st = 0 \/ st = 1)
  /\ dom fs' = dom fs
  /\ (forall path, path <> version_file_of project_root ->
                   path <> cmake_file_of project_root -> fs' !! path = fs !! path)
  /\ (l = [] \/ l = [version_file_of project_root]
      \/ l = [version_file_of project_root; cmake_file_of project_root]).
Proof.
  unfold run_effect.
  destruct (parse_version (version args)) as [[[major minor] patch]|];
    [|cbn; auto 10].
  destruct (fs !! version_file_of project_root) as [header|] eqn:Hh; [|cbn; auto 10].
  destruct (dry_run args); [cbn; auto 10|]. cbv zeta.
  assert (Hd1 : forall h,
            dom (<[version_file_of project_root := h]> fs) = dom fs).
  { intros h. apply dom_insert_lookup_L. rewrite Hh. eauto. }
  assert (Hl1 : forall h path, path <> version_file_of project_root ->
            <[version_file_of project_root := h]> fs !! path = fs !! path).
  { intros h path Hne. apply lookup_insert_ne. congruence. }
  destruct (fs !! cmake_file_of project_root) as [content|] eqn:Hc;
    [|cbn [fst snd]; auto 10].
  destruct (contains (cmake_needle major minor patch) content);
    [cbn [fst snd]; auto 10|].
  destruct (re_search cmake_pattern content); [|cbn [fst snd]; auto 10].
  cbn [fst snd]. split; [auto|]. split; [|split; [|auto]].
  - rewrite dom_insert_lookup_L; [apply Hd1|].
    rewrite lookup_cmake_after_header, Hc. eauto.
  - intros path H1 H2. rewrite lookup_insert_ne by congruence. apply Hl1, H1.
Qed.

(** X6.  Once the command line is parsed, whatever the namespace and the
    files it finds, the driver ends with status 0 or 1, creates and removes
    no file, leaves every file other than the header and the build file as
    it was, only adds to its output, and writes nothing, or the header, or
    the header and then the build file. *)
Theorem run_frame (project_root : string) (args : namespace) (w : world) :
  (fst (run project_root args w) = 0 \/ fst (run project_root args w) = 1)
  /\ dom (files (snd (run project_root args w))) = dom (files w)
  /\ (forall path, path <> version_file_of project_root ->
                   path <> cmake_file_of project_root ->
                   files (snd (run project_root args w)) !! path = files w !! path)
  /\ (exists out, stdout (snd (run project_root args w)) = stdout w ++ out)
  /\ (exists l, writes (snd (run project_root args w)) = writes w ++ l
                /\ (l = [] \/ l = [version_file_of project_root]
                    \/ l = [version_file_of project_root; cmake_file_of project_root])).
Proof.
  destruct (run_effect_spec project_root args w) as [out ->].
  destruct (run_effect_frame project_root args (files w)) as (Hst & Hdom & Hframe & Hl).
  cbn [fst snd files stdout writes]. eauto 10.
Qed.

(** ** After a substitution every occurrence carries the target *)

Lemma target_form_sepfree (sep : ascii) (p : regex) (repl d : text) :
  is_digit sep = false -> anchored sep p -> sepfree sep d -> target_form p repl d.
Proof.
  intros Hsep Hp Hd pre u r -> Hm.
  apply (rmatch_anchored_split sep Hsep) in Hm as (m & -> & _); [|exact Hp].
  apply Forall_app in Hd as [_ Hd]. inversion Hd; congruence.
Qed.

Lemma target_form_snoc (sep : ascii) (p : regex) (repl x y : text) :
  is_digit sep = false -> anchored sep p ->
  target_form p repl x -> sepfree sep y ->
  (forall r, rmatch p (sep :: y) = Some r -> sep :: y = repl ++ r) ->
  target_form p repl (x ++ sep :: y).
Proof.
  intros Hsep Hp Hx Hy Hseg pre u r E Hm.
  apply app_eq_app in E as [l [[E1 E2]|[E1 E2]]].
  - (* the occurrence starts in [x] *)
    subst u. destruct l as [|c l]; [apply Hseg; exact Hm|].
    cbn [app] in Hm. rewrite (rmatch_anchored_app_sep sep Hsep p c l y Hp) in Hm.
    destruct (rmatch p (c :: l)) as [r1|] eqn:Hm1; [|discriminate].
    injection Hm as <-. rewrite (Hx pre (c :: l) r1 E1 Hm1).
    rewrite <- app_assoc. reflexivity.
  - (* the occurrence starts in the last segment *)
    destruct l as [|c l]; [cbn [app] in E2; subst u; apply Hseg; exact Hm|].
    injection E2 as Ec Ey. subst c y.
    apply (rmatch_anchored_split sep Hsep) in Hm as (m & -> & _); [|exact Hp].
    apply Forall_app in Hy as [_ Hy]. inversion Hy; congruence.
Qed.

(** A transformation that works segment by segment and leaves each segment
    either in target form or unmatched yields a text in target form. *)
Lemma target_form_segmentwise (sep : ascii) (p : regex) (repl : text)
    (F f : text -> text) :
  is_digit sep = false -> anchored sep p ->
  (forall y, sepfree sep y -> F y = y) ->
  (forall x y, sepfree sep y -> F (x ++ sep :: y) = F x ++ f (sep :: y)) ->
  (forall y, sepfree sep y ->
     anchored_text sep (f (sep :: y)) /\
     forall r, rmatch p (f (sep :: y)) = Some r -> f (sep :: y) = repl ++ r) ->
  forall s, target_form p repl (F s).
Proof.
  intros Hsep Hp Hfree Happ Hseg s.
  induction s as [y Hy|x y Hy IH] using (segment_ind sep).
  - rewrite Hfree by assumption. apply (target_form_sepfree sep); assumption.
  - rewrite Happ by assumption.
    destruct (Hseg y Hy) as [(y' & E & Hy') Ht]. rewrite E in *.
    apply (target_form_snoc sep); assumption.
Qed.

(** For a single substitution whose replacement is stable. *)
Lemma re_sub_target_form (sep : ascii) (p : regex) (repl : text) :
  is_digit sep = false -> anchored sep p -> anchored_text sep repl ->
  (forall t r, rmatch p t = Some r -> seg_sub p repl (repl ++ r) = repl ++ r) ->
  forall s, target_form p repl (re_sub p repl s).
Proof.
  intros Hsep Hp Hr Hstable.
  apply (target_form_segmentwise sep p repl (re_sub p repl) (seg_sub p repl) Hsep Hp).
  - intros y Hy. apply (re_sub_sepfree sep); assumption.
  - intros x y Hy. apply (re_sub_app_segment sep); assumption.
  - intros y Hy. split.
    + apply (seg_sub_anchored sep); [assumption..|exists y; auto].
    + intros r. unfold seg_sub at 1 2.
      destruct (rmatch p (sep :: y)) as [r0|] eqn:Hm.
      * intros H. pose proof (Hstable _ _ Hm) as S. unfold seg_sub in S.
        rewrite H in S. exact (eq_sym S).
      * intros H. congruence.
Qed.

Lemma cmake_stable (major minor patch : Z) (t r : text) :
  rmatch cmake_pattern t = Some r ->
  seg_sub cmake_pattern (cmake_repl major minor patch) (cmake_repl major minor patch ++ r)
  = cmake_repl major minor patch ++ r.
Proof.
  intros H.
  assert (Hr : head_nondigit r).
  { apply (rmatch_digits_last
             (lits "project(PEHint VERSION " ++ [Digits; Lit dot; Digits; Lit dot]) t).
    exact H. }
  unfold seg_sub, cmake_pattern, cmake_repl, lits.
  rewrite <- app_assoc, rmatch_lits_app, <- (app_nil_r triple_re).
  rewrite rmatch_version_string; [|left; reflexivity|exact Hr].
  destruct ((0 <=? major) && (0 <=? minor) && (0 <=? patch)); reflexivity.
Qed.

(** X7.  In the document that the build-file updater writes, every
    occurrence of the clause pattern carries the target version: wherever
    [project(PEHint VERSION d.d.d] matches, the matched text is the clause
    with the target triple. *)
Theorem cmake_written_clauses_carry_target (cmake_file : string)
    (major minor patch : Z) (content : text) (w : world) (pre u r : text) :
  files w !! cmake_file = Some content ->
  contains (cmake_needle major minor patch) content = false ->
  re_search cmake_pattern content = true ->
  files (snd (update_cmake_version cmake_file major minor patch w)) !! cmake_file =
    Some (pre ++ u) ->
  rmatch cmake_pattern u = Some r ->
  u = cmake_repl major minor patch ++ r.
Proof.
  intros Hf Hg Hs Hw Hm.
  rewrite (update_cmake_version_updated _ _ _ _ _ _ Hf Hg Hs) in Hw.
  cbn [snd files] in Hw. rewrite lookup_insert_eq in Hw. injection Hw as Hw.
  apply (re_sub_target_form p_char cmake_pattern (cmake_repl major minor patch)
           p_char_not_digit cmake_pattern_anchored (cmake_repl_anchored _ _ _)
           (cmake_stable major minor patch) content pre u r Hw Hm).
Qed.

Lemma cmake_written_clauses_carry_target_witness :
  let content := lit "project(PEHint VERSION 0.3.1) project(PEHint VERSION 0.3.9)" in
  let w := World (<["CMakeLists.txt"%string := content]> ∅) [] [] in
  let pre := lit "project(PEHint VERSION 0.4.0) " in
  let u := lit "project(PEHint VERSION 0.4.0)" in
  files (snd (update_cmake_version "CMakeLists.txt" 0 4 0 w)) !! "CMakeLists.txt"%string =
    Some (pre ++ u)
  /\ rmatch cmake_pattern u = Some (lit ")")
  /\ u = cmake_repl 0 4 0 ++ lit ")".
Proof.
  intros content w pre u.
  assert (Hw : files (snd (update_cmake_version "CMakeLists.txt" 0 4 0 w))
                 !! "CMakeLists.txt"%string = Some (pre ++ u)) by reflexivity.
  assert (Hm : rmatch cmake_pattern u = Some (lit ")")) by reflexivity.
  split; [exact Hw|]. split; [exact Hm|].
  exact (cmake_written_clauses_carry_target "CMakeLists.txt" 0 4 0 content w pre u
           (lit ")") eq_refl eq_refl eq_refl Hw Hm).
Defined.

(** The header transformation, segment by segment. *)
Lemma apply_subs_sepfree (major minor patch : Z) (l : list macro) (y : text) :
  sepfree hash y -> apply_subs major minor patch l y = y.
Proof.
  intros Hy. induction l as [|m l IH]; [reflexivity|].
  rewrite apply_subs_cons. unfold header_sub.
  rewrite (re_sub_sepfree hash _ _ (header_pattern_anchored m) y Hy). exact IH.
Qed.

Lemma header_seg_cons (major minor patch : Z) (m : macro) (l : list macro) (t : text) :
  header_seg major minor patch (m :: l) t =
  header_seg major minor patch l
    (seg_sub (header_pattern m) (header_repl major minor patch m) t).
Proof. reflexivity. Qed.

Lemma apply_subs_app_segment (major minor patch : Z) (l : list macro) (x y : text) :
  sepfree hash y ->
  apply_subs major minor patch l (x ++ hash :: y) =
  apply_subs major minor patch l x ++ header_seg major minor patch l (hash :: y).
Proof.
  revert x y. induction l as [|m l IH]; intros x y Hy; [reflexivity|].
  rewrite !apply_subs_cons, header_seg_cons. unfold header_sub.
  rewrite (re_sub_app_segment hash hash_not_digit _ _ (header_pattern_anchored m) x y Hy).
  destruct (seg_sub_anchored hash hash_not_digit _ _ (header_pattern_anchored m)
              (header_repl_anchored major minor patch m) (hash :: y))
    as (y1 & E & Hy1); [exists y; auto|].
  rewrite E. apply IH. exact Hy1.
Qed.

Lemma header_seg_anchored (major minor patch : Z) (l : list macro) (t : text) :
  anchored_text hash t -> anchored_text hash (header_seg major minor patch l t).
Proof.
  revert t. induction l as [|m l IH]; intros t Ht; [exact Ht|].
  rewrite header_seg_cons. apply IH.
  apply (seg_sub_anchored hash hash_not_digit);
    [apply header_pattern_anchored | apply header_repl_anchored | exact Ht].
Qed.

(** A replaced segment is left alone by all substitutions. *)
Lemma header_seg_fix (major minor patch : Z) (l : list macro) (i : macro) (t r : text) :
  rmatch (header_pattern i) t = Some r ->
  header_seg major minor patch l (header_repl major minor patch i ++ r) =
  header_repl major minor patch i ++ r.
Proof.
  intros H. induction l as [|m l IH]; [reflexivity|].
  rewrite header_seg_cons.
  destruct (decide (i = m)) as [<-|Hne].
  - rewrite (header_stable _ _ _ _ _ _ H). exact IH.
  - unfold seg_sub at 1. rewrite header_repl_other by exact Hne. exact IH.
Qed.

Lemma header_seg_cases (major minor patch : Z) (l : list macro) (t : text) :
  (exists i r, In i l /\ rmatch (header_pattern i) t = Some r /\
     header_seg major minor patch l t = header_repl major minor patch i ++ r)
  \/ ((forall i, In i l -> rmatch (header_pattern i) t = None) /\
      header_seg major minor patch l t = t).
Proof.
  induction l as [|m l IH].
  - right. split; [intros i []|reflexivity].
  - rewrite header_seg_cons.
    destruct (rmatch (header_pattern m) t) as [r|] eqn:Hm.
    + left. exists m, r. split; [left; reflexivity|]. split; [exact Hm|].
      unfold seg_sub at 1. rewrite Hm.
      apply (header_seg_fix _ _ _ _ _ t). exact Hm.
    + assert (Es : seg_sub (header_pattern m) (header_repl major minor patch m) t = t)
        by (unfold seg_sub; rewrite Hm; reflexivity).
      rewrite Es.
      destruct IH as [(i & r & Hi & Hr & E)|[Hnone E]].
      * left. exists i, r. split; [right; exact Hi|]. auto.
      * right. split; [|exact E]. intros i [<-|Hi]; auto.
Qed.

Lemma header_seg_target (major minor patch : Z) (l : list macro) (m : macro) (t r : text) :
  In m l ->
  rmatch (header_pattern m) (header_seg major minor patch l t) = Some r ->
  header_seg major minor patch l t = header_repl major minor patch m ++ r.
Proof.
  intros Hin H.
  destruct (header_seg_cases major minor patch l t) as [(i & r0 & Hi & Hr & E)|[Hnone E]].
  - rewrite E in *. destruct (decide (i = m)) as [->|Hne].
    + pose proof (header_stable major minor patch m t r0 Hr) as S.
      unfold seg_sub in S. rewrite H in S. exact (eq_sym S).
    + rewrite header_repl_other in H by exact Hne. discriminate.
  - rewrite E in H. rewrite (Hnone m Hin) in H. discriminate.
Qed.

Lemma header_order_complete (m : macro) : In m header_order.
Proof. destruct m; cbn; auto 10. Qed.

(** X8.  In the document that the header transformation produces, every
    occurrence of one of the five patterns carries the target: wherever the
    pattern of a macro matches, the matched text is the definition of that
    macro with the target value. *)
Theorem header_written_macros_carry_target (major minor patch : Z) (m : macro)
    (content pre u r : text) :
  update_header_text major minor patch content = pre ++ u ->
  rmatch (header_pattern m) u = Some r ->
  u = header_repl major minor patch m ++ r.
Proof.
  rewrite update_header_text_eq.
  apply (target_form_segmentwise hash (header_pattern m) (header_repl major minor patch m)
           (apply_subs major minor patch header_order)
           (header_seg major minor patch header_order)
           hash_not_digit (header_pattern_anchored m)).
  - intros y. apply apply_subs_sepfree.
  - intros x y. apply apply_subs_app_segment.
  - intros y Hy. split.
    + apply header_seg_anchored. exists y. auto.
    + intros r0. apply header_seg_target, header_order_complete.
Qed.

Lemma header_written_macros_carry_target_witness :
  let content := lit "#define PEHINT_VERSION_MAJOR 1" ++ [newline]
                   ++ lit "#define PEHINT_VERSION_PATCH 5;" in
  update_header_text 7 8 9 content =
    (lit "#define PEHINT_VERSION_MAJOR 7" ++ [newline])
      ++ lit "#define PEHINT_VERSION_PATCH 9;"
  /\ rmatch (header_pattern PATCH) (lit "#define PEHINT_VERSION_PATCH 9;") = Some (lit ";")
  /\ lit "#define PEHINT_VERSION_PATCH 9;" = header_repl 7 8 9 PATCH ++ lit ";".
Proof.
  intros content.
  assert (H1 : update_header_text 7 8 9 content =
               (lit "#define PEHINT_VERSION_MAJOR 7" ++ [newline])
                 ++ lit "#define PEHINT_VERSION_PATCH 9;") by reflexivity.
  assert (H2 : rmatch (header_pattern PATCH) (lit "#define PEHINT_VERSION_PATCH 9;")
               = Some (lit ";")) by reflexivity.
  split; [exact H1|]. split; [exact H2|].
  exact (header_written_macros_carry_target 7 8 9 PATCH content _ _ _ H1 H2).
Defined.

(** X9.  Once the command line is parsed, the driver ends with status 0
    only if the version parses, the header file exists and, unless it is a
    dry run, the build file exists too. *)
Theorem run_success_requires (project_root : string) (args : namespace) (w : world) :
  fst (run project_root args w) = 0 ->
  parse_version (version args) <> None
  /\ is_Some (files w !! version_file_of project_root)
  /\ (dry_run args = true \/ is_Some (files w !! cmake_file_of project_root)).
Proof.
  destruct (run_effect_spec project_root args w) as [out ->]. cbn [fst].
  unfold run_effect.
  destruct (parse_version (version args)) as [[[major minor] patch]|];
    [|cbn [fst]; discriminate].
  destruct (files w !! version_file_of project_root) as [header|];
    [|cbn [fst]; discriminate].
  destruct (dry_run args).
  { intros _. split; [discriminate|]. split; eauto. }
  cbv zeta.
  destruct (files w !! cmake_file_of project_root) as [content|];
    [|cbn [fst]; discriminate].
  intros _. split; [discriminate|]. split; eauto.
Qed.

Lemma run_success_requires_witness :
  let args := Namespace (lit "0.4.2") true in
  let w := World (<["/repo/src/version.h"%string := lit "#define PEHINT_VERSION_MAJOR 0"]> ∅)
                 [] [] in
  fst (run "/repo" args w) = 0
  /\ parse_version (version args) <> None
  /\ is_Some (files w !! version_file_of "/repo").
Proof.
  intros args w.
  assert (H : fst (run "/repo" args w) = 0) by reflexivity.
  destruct (run_success_requires "/repo" args w H) as (Hp & Hh & _).
  split; [exact H|]. split; [exact Hp | exact Hh].
Defined.

(** ** What [int] accepts *)

Lemma space_not_literal_body (c : ascii) :
  is_space c = true ->
  is_digit c = false /\ Ascii.eqb c "_"%char = false /\ Ascii.eqb c "+"%char = false
  /\ Ascii.eqb c "-"%char = false /\ Ascii.eqb c dot = false.
Proof.
  destruct c as [[] [] [] [] [] [] [] []]; intros H;
    repeat split; try reflexivity; discriminate.
Qed.

Lemma skip_spaces_app (sp s : text) :
  forallb is_space sp = true -> skip_spaces (sp ++ s) = skip_spaces s.
Proof.
  induction sp as [|c sp IH]; [reflexivity|]. cbn [forallb app skip_spaces].
  intros H. apply andb_true_iff in H as [-> H]. auto.
Qed.

Lemma skip_spaces_all (sp : text) : forallb is_space sp = true -> skip_spaces sp = [].
Proof.
  intros H. rewrite <- (app_nil_r sp), skip_spaces_app by assumption. reflexivity.
Qed.

Lemma scan_digits_numeral (acc : Z) (a sp : text) :
  all_digits a -> forallb is_space sp = true ->
  scan_digits acc false (a ++ sp) =
  Some (fold_left (fun acc c => 10 * acc + digit_val c) a acc, sp).
Proof.
  intros Ha Hsp. revert acc. induction Ha as [|c a Hc Ha IH]; intros acc.
  - cbn [app fold_left]. destruct sp as [|x sp]; [reflexivity|].
    cbn [forallb] in Hsp. apply andb_true_iff in Hsp as [Hx _].
    destruct (space_not_literal_body x Hx) as (Hd & Hu & _).
    cbn [scan_digits]. rewrite Hd, Hu. reflexivity.
  - cbn [app scan_digits fold_left]. rewrite Hc. apply IH.
Qed.

(** After the white space and the sign. *)
Lemma py_int_body (a sp : text) :
  is_numeral a = true -> forallb is_space sp = true ->
  match a ++ sp with
  | [] => None
  | c :: _ =>
      if is_digit c
      then match scan_digits 0 false (a ++ sp) with
           | Some (n, rest) =>
               match skip_spaces rest with
               | [] => Some n
               | _ :: _ => None
               end
           | None => None
           end
      else None
  end = Some (dec_value a).
Proof.
  intros Ha Hsp. apply is_numeral_spec in Ha as [Ha Hne].
  rewrite (scan_digits_numeral 0 a sp Ha Hsp), (skip_spaces_all sp Hsp).
  destruct a as [|c a]; [congruence|]. inversion Ha as [|? ? Hc _]; subst.
  cbn [app]. rewrite Hc. reflexivity.
Qed.

Lemma py_int_literal (s : text) (z : Z) : int_literal s z -> py_int s = Some z.
Proof.
  intros [sp a sp' Hsp Hsp' Ha|sp a sp' Hsp Hsp' Ha|sp a sp' Hsp Hsp' Ha];
    unfold py_int; rewrite (skip_spaces_app sp _ Hsp).
  - pose proof (py_int_body a sp' Ha Hsp') as B.
    apply is_numeral_spec in Ha as [Hd Hne].
    destruct a as [|c a]; [congruence|]. inversion Hd as [|? ? Hc _]; subst.
    cbn [app skip_spaces] in *. rewrite (digit_not_space c Hc).
    destruct (digit_not_sign c Hc) as (-> & -> & _). exact B.
  - cbn [skip_spaces]. change (is_space "+"%char) with false. cbv iota.
    rewrite Ascii.eqb_refl. exact (py_int_body a sp' Ha Hsp').
  - cbn [skip_spaces]. change (is_space "-"%char) with false. cbv iota.
    change (Ascii.eqb "-"%char "+"%char) with false. cbv iota.
    rewrite Ascii.eqb_refl.
    pose proof (py_int_body a sp' Ha Hsp') as B.
    destruct (a ++ sp') as [|c t]; [discriminate|].
    destruct (is_digit c); [|discriminate].
    destruct (scan_digits 0 false (c :: t)) as [[n rest]|]; [|discriminate].
    destruct (skip_spaces rest); [|discriminate].
    injection B as ->. reflexivity.
Qed.

Lemma spaces_sepfree_dot (sp : text) : forallb is_space sp = true -> sepfree dot sp.
Proof.
  induction sp as [|c sp IH]; [constructor|]. cbn [forallb]. intros H.
  apply andb_true_iff in H as [Hc H]. constructor; [|exact (IH H)].
  intros ->. discriminate Hc.
Qed.

Lemma int_literal_sepfree_dot (s : text) (z : Z) : int_literal s z -> sepfree dot s.
Proof.
  intros [sp a sp' Hsp Hsp' Ha|sp a sp' Hsp Hsp' Ha|sp a sp' Hsp Hsp' Ha];
    apply is_numeral_spec in Ha as [Ha _];
    repeat first
      [ apply Forall_app; split
      | apply spaces_sepfree_dot; assumption
      | apply all_digits_sepfree; [reflexivity | assumption]
      | constructor; [discriminate|] ].
Qed.

(** X10.  A version string of three integer literals joined by dots parses
    to their values, where a literal is a decimal numeral with an optional
    sign before it and white space around: signs and padding are accepted,
    and a minus sign gives a negative component. *)
Theorem parse_version_literals (s1 s2 s3 : text) (z1 z2 z3 : Z) :
  int_literal s1 z1 -> int_literal s2 z2 -> int_literal s3 z3 ->
  parse_version (s1 ++ dot :: s2 ++ dot :: s3) = Some (z1, z2, z3).
Proof.
  intros H1 H2 H3. unfold parse_version. fold dot.
  rewrite split_app_sep by (eapply int_literal_sepfree_dot; eassumption).
  rewrite split_app_sep by (eapply int_literal_sepfree_dot; eassumption).
  rewrite split_sepfree by (eapply int_literal_sepfree_dot; eassumption).
  cbn [map]. rewrite (py_int_literal _ _ H1), (py_int_literal _ _ H2), (py_int_literal _ _ H3).
  reflexivity.
Qed.

Lemma parse_version_literals_witness :
  int_literal (lit " 0") 0 /\ int_literal (lit "+4 ") 4 /\ int_literal (lit "-2") (-2)
  /\ parse_version (lit " 0.+4 .-2") = Some (0, 4, -2).
Proof.
  assert (H1 : int_literal (lit " 0") 0)
    by exact (literal_plain (lit " ") (lit "0") [] eq_refl eq_refl eq_refl).
  assert (H2 : int_literal (lit "+4 ") 4)
    by exact (literal_plus [] (lit "4") (lit " ") eq_refl eq_refl eq_refl).
  assert (H3 : int_literal (lit "-2") (-2))
    by exact (literal_minus [] (lit "2") [] eq_refl eq_refl eq_refl).
  split; [exact H1|]. split; [exact H2|]. split; [exact H3|].
  exact (parse_version_literals _ _ _ _ _ _ H1 H2 H3).
Defined.

Lemma py_str_literal (z : Z) : int_literal (py_str z) z.
Proof.
  destruct (Z_lt_le_dec z 0) as [Hz|Hz].
  - destruct z as [|p|p]; [lia|lia|].
    destruct (py_str_nonneg (Z.pos p) ltac:(lia)) as [Hd Hne].
    assert (E : py_str (Z.neg p) = [] ++ "-"%char :: py_str (Z.pos p) ++ [])
      by (rewrite app_nil_r; reflexivity).
    rewrite E.
    replace (Z.neg p) with (- dec_value (py_str (Z.pos p)))
      by (rewrite dec_value_py_str; lia).
    apply literal_minus; [reflexivity..|]. apply is_numeral_spec. auto.
  - destruct (py_str_nonneg z Hz) as [Hd Hne].
    assert (E : py_str z = [] ++ py_str z ++ []) by (rewrite app_nil_r; reflexivity).
    rewrite E at 1. rewrite <- (dec_value_py_str z Hz) at 2.
    apply literal_plain; [reflexivity..|]. apply is_numeral_spec. auto.
Qed.

(** X11.  Printing and parsing are inverse for every triple of integers,
    negative ones included: the version that the messages of the script
    show parses back to the triple it was printed from. *)
Theorem parse_version_version_string (major minor patch : Z) :
  parse_version (version_string major minor patch) = Some (major, minor, patch).
Proof.
  rewrite <- (app_nil_r (version_string major minor patch)), version_string_app.
  rewrite app_nil_r. apply parse_version_literals; apply py_str_literal.
Qed.

(** ** Text that the header transformation leaves alone *)

Lemma apply_subs_sepfree_app (major minor patch : Z) (l : list macro) (x t : text) :
  sepfree hash x ->
  apply_subs major minor patch l (x ++ t) = x ++ apply_subs major minor patch l t.
Proof.
  intros Hx. revert t. induction l as [|m l IH]; intros t; [reflexivity|].
  rewrite !apply_subs_cons. unfold header_sub at 1.
  rewrite (re_sub_sepfree_app hash _ _ (header_pattern_anchored m) x t Hx).
  apply IH.
Qed.

(** A block that no pattern of [l] matches, whatever follows it, is copied. *)
Lemma apply_subs_inert_block (major minor patch : Z) (l : list macro)
    (pre blk post : text) :
  anchored_text hash blk ->
  (forall m post', In m l -> rmatch (header_pattern m) (blk ++ post') = None) ->
  apply_subs major minor patch l (pre ++ blk ++ post) =
  apply_subs major minor patch l pre ++ blk ++ apply_subs major minor patch l post.
Proof.
  intros Hblk. revert pre post. induction l as [|m l IH]; intros pre post Hno;
    [reflexivity|].
  rewrite !apply_subs_cons. unfold header_sub at 1.
  rewrite (re_sub_inert hash).
  - apply IH. intros j post' Hj. apply Hno. right. exact Hj.
  - reflexivity.
  - apply header_pattern_anchored.
  - exact Hblk.
  - apply Hno. left. reflexivity.
Qed.

Lemma clash_app_r (a l l' : text) : clash a l = true -> clash a (l ++ l') = true.
Proof.
  revert l. induction a as [|x a IH]; intros [|y l]; cbn; try discriminate.
  destruct (Ascii.eqb x y); [apply IH | reflexivity].
Qed.

Lemma clash_app_l (a a' l : text) : clash a l = true -> clash (a ++ a') l = true.
Proof.
  revert l. induction a as [|x a IH]; intros [|y l]; cbn; try discriminate.
  destruct (Ascii.eqb x y); [apply IH | reflexivity].
Qed.

Lemma header_literal_common (m : macro) :
  exists l', header_literal m = lit "#define PEHINT_VERSION_" ++ l'.
Proof. destruct m; eexists; reflexivity. Qed.

(** X12.  The header transformation changes nothing but the five macro
    definitions: text before the first ['#'] is kept, and so is every block
    that starts at a ['#'], holds no other one and departs from
    [#define PEHINT_VERSION_] (another directive, another macro), whatever
    surrounds it. *)
Theorem header_other_text_preserved (major minor patch : Z) :
  (forall x t : text, sepfree hash x ->
     update_header_text major minor patch (x ++ t) =
     x ++ update_header_text major minor patch t)
  /\ (forall pre blk post : text,
        anchored_text hash blk ->
        clash blk (lit "#define PEHINT_VERSION_") = true ->
        update_header_text major minor patch (pre ++ blk ++ post) =
        update_header_text major minor patch pre ++ blk
          ++ update_header_text major minor patch post).
Proof.
  split.
  - intros x t Hx. rewrite !update_header_text_eq. apply apply_subs_sepfree_app. exact Hx.
  - intros pre blk post Hblk Hclash. rewrite !update_header_text_eq.
    apply apply_subs_inert_block; [exact Hblk|].
    intros m post' _. rewrite header_pattern_eq.
    destruct (header_literal_common m) as [l' ->].
    apply clash_rmatch, clash_app_r. exact Hclash.
Qed.

Lemma header_other_text_preserved_witness :
  let pre := lit "// version" ++ [newline] in
  let blk := lit "#include <string>" ++ [newline] in
  let post := lit "#define PEHINT_VERSION_MAJOR 0" in
  sepfree hash pre /\ anchored_text hash blk
  /\ clash blk (lit "#define PEHINT_VERSION_") = true
  /\ update_header_text 1 2 3 (pre ++ blk ++ post) =
     pre ++ blk ++ lit "#define PEHINT_VERSION_MAJOR 1".
Proof.
  intros pre blk post.
  assert (H1 : sepfree hash pre) by (apply sepfree_check; reflexivity).
  assert (H2 : anchored_text hash blk).
  { exists (tl blk). split; [reflexivity | apply sepfree_check; reflexivity]. }
  assert (H3 : clash blk (lit "#define PEHINT_VERSION_") = true) by reflexivity.
  split; [exact H1|]. split; [exact H2|]. split; [exact H3|].
  destruct (header_other_text_preserved 1 2 3) as [Hplain Hblock].
  rewrite (Hplain pre (blk ++ post) H1).
  exact (f_equal (app pre) (Hblock [] blk post H2 H3)).
Defined.

Lemma header_repl_negative_unmatched (major minor patch : Z) (m : macro) (post : text) :
  negative_value major minor patch m ->
  rmatch (header_pattern m) (header_repl major minor patch m ++ post) = None.
Proof.
  intros Hneg.
  rewrite header_pattern_eq, header_repl_eq, <- app_assoc, rmatch_lits_app.
  assert (Hnum : forall z, z < 0 -> rmatch [Digits] (py_str z ++ post) = None).
  { intros z Hz. destruct (py_str_neg z Hz) as [d ->]. reflexivity. }
  assert (Hver : major < 0 \/ minor < 0 \/ patch < 0 ->
            rmatch (triple_re ++ [Lit dquote])
              ((version_string major minor patch ++ [dquote]) ++ post) = None).
  { intros H. rewrite <- app_assoc. cbn [app].
    rewrite rmatch_version_string;
      [|right; eexists _, _; split; [reflexivity | apply dquote_not_digit]
       |apply dquote_not_digit].
    destruct (Z.leb_spec 0 major); [|reflexivity].
    destruct (Z.leb_spec 0 minor); [|reflexivity].
    destruct (Z.leb_spec 0 patch); [lia | reflexivity]. }
  destruct m; cbn [header_value_re header_value negative_value] in *; auto.
Qed.

(** X13.  A negative number, once written, stays: a macro definition that
    an earlier run wrote with a negative value (or a version string with a
    negative component) is matched by no pattern, so a later run, with
    whatever version, copies it unchanged. *)
Theorem negative_value_never_rewritten (major minor patch major' minor' patch' : Z)
    (m : macro) (pre post : text) :
  negative_value major minor patch m ->
  update_header_text major' minor' patch'
    (pre ++ header_repl major minor patch m ++ post) =
  update_header_text major' minor' patch' pre ++ header_repl major minor patch m
    ++ update_header_text major' minor' patch' post.
Proof.
  intros Hneg. rewrite !update_header_text_eq.
  apply apply_subs_inert_block; [apply header_repl_anchored|].
  intros j post' _. destruct (decide (m = j)) as [<-|Hne].
  - apply header_repl_negative_unmatched. exact Hneg.
  - apply header_repl_other. exact Hne.
Qed.

Lemma negative_value_never_rewritten_witness :
  negative_value 1 (-2) 3 MINOR
  /\ update_header_text 0 4 2 (lit "#define PEHINT_VERSION_MINOR -2") =
     lit "#define PEHINT_VERSION_MINOR -2".
Proof.
  assert (H : negative_value 1 (-2) 3 MINOR) by (cbn; lia).
  split; [exact H|].
  exact (negative_value_never_rewritten 1 (-2) 3 0 4 2 MINOR [] [] H).
Defined.
